(** * ldnlib: a Linked Data Notifications inbox watcher

    A shallow embedding of [src/index.ts]: the notification model, the
    ingestion routine [parseNotification], the send path [sendNotification]
    with [serialize] and [login], and the [InboxWatcher] class: constructor,
    [create], [init], [start] with its polling loop, and [stop].

    Conventions of the embedding.
    - A JavaScript value of type [string | undefined] (or [string | null]) is
      an [option string]; its truthiness is [truthy].
    - An awaited call to the outside (the inbox listing, an HTTP request, the
      login) either yields a value or throws: its reply is an [Outcome].
    - An [async] function body that reads and writes the fields of [this] is a
      computation in the monad [Async]: the state is threaded through, and a
      thrown exception keeps every side effect made before it.
    - The krieven-data-file store is a finite map from keys to booleans.
    - The listeners registered on the watcher are code of the user: what they
      do when an event is emitted, return or throw, is a field of the
      watcher. *)

From Stdlib Require Import String List Bool ZArith.
From stdpp Require Import base option strings gmap list.
Import ListNotations.
Local Open Scope string_scope.
Local Open Scope list_scope.

(** ** JavaScript values *)

Definition Error := string.

(** The reply of a call that may throw (or of a promise that may reject). *)
Inductive Outcome (A : Type) : Type :=
  | Ok (a : A)
  | Thrown (e : Error).

Arguments Ok {A} a.
Arguments Thrown {A} e.

(** [!!x] for [x : string | undefined]: undefined and the empty string are
    falsy, every other string is truthy. *)
Definition truthy (x : option string) : bool :=
  match x with
  | None => false
  | Some s => negb (String.eqb s "")
  end.

(** [a || b] on [string | undefined]. *)
Definition js_or (a b : option string) : option string :=
  if truthy a then a else b.

(** [!!x] for [x : boolean | undefined], the value [Store.get] returns. *)
Definition truthy_flag (x : option bool) : bool :=
  match x with
  | Some true => true
  | _ => false
  end.

(** [Array.prototype.includes] on an array of strings. *)
Fixpoint includes (xs : list string) (x : string) : bool :=
  match xs with
  | [] => false
  | y :: ys => String.eqb y x || includes ys x
  end.

(** ** RDF terms and quads ([@rdfjs/types]) *)

Inductive TermType := NamedNode | BlankNode | Literal | VariableTerm | DefaultGraph.

Record Term := { termType : TermType; value : string }.

Record Quad := { subject : Term; predicate : Term; object : Term; graph : Term }.

(** ** Streams

    What a Node stream delivers to its listeners: the ['data'] chunks in
    order, then either ['end'] or ['error']. *)

Inductive Ending := End | Error_ (e : Error).

Record Stream (A : Type) := { chunks : list A; ending : Ending }.

Arguments chunks {A} _.
Arguments ending {A} _.

(** ** Constants *)

Definition RDF_NS := "http://www.w3.org/1999/02/22-rdf-syntax-ns#".

Definition AS_NS := "https://www.w3.org/ns/activitystreams#".

Definition AS_types : list string :=
  map (fun k => AS_NS +:+ k)
      ["Create"; "Update"; "Remove"; "Announce"; "Offer"; "Accept"; "Reject"].

(** ** The notification model *)

Record INotification := { quads : list Quad; id : option string }.

(** ** parseNotification *)

(** The ['data'] handler: push the quad, and set [id] when it is still falsy
    and the quad types its subject as one of [AS_types]. *)
Definition on_data (st : list Quad * option string) (quad : Quad)
  : list Quad * option string :=
  let '(quads, id) := st in
  (quads ++ [quad],
   if negb (truthy id)
      && String.eqb (value (predicate quad)) (RDF_NS +:+ "type")
      && includes AS_types (value (object quad))
   then Some (value (subject quad))
   else id).

(** The promise [parseNotification] returns, for what the JSON-LD parser
    delivers: rejected on ['error'], resolved with [{id, quads}] on ['end']. *)
Definition parseNotification (parsed : Stream Quad) : Outcome INotification :=
  let '(quads, id) := fold_left on_data (chunks parsed) ([], None) in
  match ending parsed with
  | Error_ e => Thrown e
  | End => Ok {| quads := quads; id := id |}
  end.

(** ** serialize

    The JSON-LD serializer is a library: given the context and the quads
    pushed to its input it delivers a stream of string chunks. [serialize]
    concatenates the chunks and resolves on ['end']. *)
Definition serialize_context := "https://www.w3.org/ns/activitystreams".

Definition serialize (serializerJsonld : string -> list Quad -> Stream string)
    (notification : INotification) : Outcome string :=
  let output := serializerJsonld serialize_context (quads notification) in
  let result := fold_left String.append (chunks output) "" in
  match ending output with
  | Error_ e => Thrown e
  | End => Ok result
  end.

(** ** HTTP *)

(** A [Headers] object: names are kept in lower case, [get] returns null for
    a name that is absent. *)
Definition Headers := list (string * string).

Fixpoint headers_get (h : Headers) (name : string) : option string :=
  match h with
  | [] => None
  | (k, v) :: rest => if String.eqb k name then Some v else headers_get rest name
  end.

Module Request.
Record t := { method : string; body : option string; headers : Headers }.
End Request.

(** A response whose body has been read with [text()]. *)
Module Response.
Record t := { url : string; ok : bool; headers : Headers; text : string }.
End Response.

(** One entry of the listing [list] of solid-bashlib returns. *)
Module ResourceInfo.
Record t := { url : string }.
End ResourceInfo.

(** An authenticated fetch function: a capability bound to a web identity.
    What a call through it returns is decided by the network at the time of
    the call, so replies are supplied from outside. *)
Inductive AuthFetch := FetchAs (webId : option string).

Module SessionInfo.
Record t := { fetch : AuthFetch; webId : option string }.
End SessionInfo.

(** The credentials object passed to [login], [InboxWatcher.create] and
    [sendNotification]; fields a caller leaves out are [None]. *)
Module Credentials.
Record t := {
  name : string;
  email : string;
  password : string;
  idp : string;
  authUrl : option string;
  clientCredentialsTokenStorageLocation : option string;
  cachePath : option string
}.
End Credentials.

(** ** The outcome monad (a chain of awaits outside the watcher) *)

Definition and_then {A B} (m : Outcome A) (k : A -> Outcome B) : Outcome B :=
  match m with
  | Ok a => k a
  | Thrown e => Thrown e
  end.

Declare Scope outcome_scope.

Delimit Scope outcome_scope with outcome.

Notation "x <- m ;; k" := (and_then m (fun x => k))
  (at level 20, m at level 99, k at level 200) : outcome_scope.

(** ** login and sendNotification *)

Section SendPath.

(** solid-bashlib and the network. *)
Variable generateCSSToken : Credentials.t -> Outcome string.

Variable authenticateToken : string -> string -> Outcome SessionInfo.t.

Variable serializerJsonld : string -> list Quad -> Stream string.

Variable http : AuthFetch -> string -> Request.t -> Outcome Response.t.

Definition login (baseUrl : string) (options : Credentials.t)
  : Outcome SessionInfo.t :=
  (token <- generateCSSToken options ;;
   session <- authenticateToken token baseUrl ;;
   Ok {| SessionInfo.fetch := SessionInfo.fetch session;
         SessionInfo.webId := SessionInfo.webId session |})%outcome.

Record SendResult := { success : bool; location : option string }.

(** [options.authUrl || options.idp || inboxUrl] *)
Definition login_url (options : Credentials.t) (inboxUrl : string) : string :=
  match js_or (js_or (Credentials.authUrl options) (Some (Credentials.idp options)))
              (Some inboxUrl) with
  | Some u => u
  | None => inboxUrl
  end.

Definition post_request (result : string) : Request.t :=
  {| Request.method := "POST";
     Request.body := Some result;
     Request.headers := [("content-type", "application/ld+json")] |}.

Definition sendNotification (notification : INotification) (inboxUrl : string)
    (options : Credentials.t) : Outcome SendResult :=
  (session <- login (login_url options inboxUrl) options ;;
   let authFetch := SessionInfo.fetch session in
   result <- serialize serializerJsonld notification ;;
   response <- http authFetch inboxUrl (post_request result) ;;
   Ok {| success := Response.ok response;
         location := headers_get (Response.headers response) "location" |})%outcome.

End SendPath.

(** ** The identity store

    A [Store<boolean>] of krieven-data-file, opened on a file: a finite map
    from keys to booleans. [get] returns undefined for a key never put. The
    key the watcher passes is a [string | undefined]; the store is taken to
    treat undefined as a key like any other. *)
Abbreviation Store := (gmap (option string) bool).

Definition store_get (store : Store) (key : option string) : option bool :=
  store !! key.

Definition store_put (key : option string) (v : bool) (store : Store) : Store :=
  <[key := v]> store.

(** ** InboxWatcher *)

(** What the outside observes of a watcher, in order of occurrence. *)
Inductive Effect :=
  | ListRequested (inboxUrl : string)      (* list(inboxUrl, ...) was called *)
  | FetchRequested (url : string)          (* this.fetch(url) was called *)
  | Queried (key : option string)          (* this.db.get(key) *)
  | Emitted (notification : INotification) (* this.emit('notification', ...) *)
  | Stored (key : option string).          (* this.db.put(key, true) *)

(** The listeners of ['notification'], taken together: given the
    notifications emitted before and the one emitted now, they return or one
    of them throws. [EventEmitter.emit] calls them synchronously and lets
    the exception of a listener through. A listener is taken not to call
    back into the watcher. *)
Definition Listeners : Type :=
  list INotification -> INotification -> Outcome unit.

(** The fields of the class; [listeners], the state it inherits from
    [EventEmitter]; and [log]: the effects made so far, oldest first. *)
Record InboxWatcher := {
  webId : option string;
  fetch : option AuthFetch;
  freq : Z;
  stopPolling : bool;
  db : option Store;
  listeners : Listeners;
  log : list Effect
}.

Definition set_stopPolling (b : bool) (w : InboxWatcher) : InboxWatcher :=
  {| webId := webId w; fetch := fetch w; freq := freq w;
     stopPolling := b; db := db w; listeners := listeners w; log := log w |}.

Definition set_db (d : option Store) (w : InboxWatcher) : InboxWatcher :=
  {| webId := webId w; fetch := fetch w; freq := freq w;
     stopPolling := stopPolling w; db := d; listeners := listeners w;
     log := log w |}.

Definition record (e : Effect) (w : InboxWatcher) : InboxWatcher :=
  {| webId := webId w; fetch := fetch w; freq := freq w;
     stopPolling := stopPolling w; db := db w; listeners := listeners w;
     log := log w ++ [e] |}.

(** [on('notification', listener)]: the listener is called after those
    registered before it, unless one of them throws. *)
Definition on_notification (listener : Listeners) (w : InboxWatcher)
  : InboxWatcher :=
  {| webId := webId w; fetch := fetch w; freq := freq w;
     stopPolling := stopPolling w; db := db w;
     listeners := fun before notification =>
                    match listeners w before notification with
                    | Ok _ => listener before notification
                    | Thrown e => Thrown e
                    end;
     log := log w |}.

(** The notifications delivered to the listeners of ['notification']. *)
Fixpoint emitted (l : list Effect) : list INotification :=
  match l with
  | [] => []
  | Emitted n :: rest => n :: emitted rest
  | _ :: rest => emitted rest
  end.

(** What the listeners do when [notification] is emitted now. *)
Definition heard (w : InboxWatcher) (notification : INotification)
  : Outcome unit :=
  listeners w (emitted (log w)) notification.

(** *** The constructor and the factory *)

Module WatcherOptions.
Record t := {
  cache : option bool;
  cachePath : option string;
  inboxPath : option string
}.
(** The default value [{}] of the constructor's second parameter. *)
Definition empty : t :=
  {| cache := None; cachePath := None; inboxPath := None |}.
End WatcherOptions.

(** The file system as the constructor meets it: [disk path] is what creating
    the directory of [path] and [new Store(path, 512)] yield, the store kept
    in the file (an empty one when there is no file yet), or the exception of
    [fs.mkdirSync] or of [Store]. What a store writes back to its file is not
    modelled: nothing is stated about a watcher constructed later on the
    same path. *)
Definition Disk : Type := string -> Outcome Store.

(** The object the constructor returns: the fields it sets, with [db] as
    given; no listener is registered yet. *)
Definition constructed (session : SessionInfo.t) (db : option Store)
  : InboxWatcher :=
  {| webId := SessionInfo.webId session;
     fetch := Some (SessionInfo.fetch session);
     freq := 1000;
     stopPolling := false;
     db := db;
     listeners := fun _ _ => Ok tt;
     log := [] |}.

(** [new InboxWatcher(session, options)]; it throws when the store cannot be
    opened. *)
Definition constructor (disk : Disk) (session : SessionInfo.t)
    (options : WatcherOptions.t) : Outcome InboxWatcher :=
  if truthy_flag (WatcherOptions.cache options)
  then
    let cachePath :=
      match js_or (WatcherOptions.cachePath options)
                  (Some "./.cache/cache.dsb") with
      | Some p => p
      | None => "./.cache/cache.dsb"
      end in
    (store <- disk cachePath ;;
     Ok (constructed session (Some store)))%outcome
  else Ok (constructed session None).

Section Create.

Variable generateCSSToken : Credentials.t -> Outcome string.

Variable authenticateToken : string -> string -> Outcome SessionInfo.t.

Definition create (disk : Disk) (baseUrl : string)
    (options : Credentials.t) : Outcome InboxWatcher :=
  (session <- login generateCSSToken authenticateToken baseUrl options ;;
   constructor disk session WatcherOptions.empty)%outcome.

End Create.

(** [stop()] *)
Definition stop (w : InboxWatcher) : InboxWatcher := set_stopPolling true w.

(** ** Async computations on a watcher

    The body of an [async] method: it reads and writes [this], and may throw.
    Effects made before a throw stay. *)
Definition Async (A : Type) : Type := InboxWatcher -> Outcome A * InboxWatcher.

Definition ret {A} (a : A) : Async A := fun w => (Ok a, w).

Definition bind {A B} (m : Async A) (k : A -> Async B) : Async B :=
  fun w =>
    match m w with
    | (Ok a, w') => k a w'
    | (Thrown e, w') => (Thrown e, w')
    end.

(** [await p] for a promise settled with [reply]. *)
Definition await {A} (reply : Outcome A) : Async A := fun w => (reply, w).

Definition this : Async InboxWatcher := fun w => (Ok w, w).

Definition perform (e : Effect) : Async unit := fun w => (Ok tt, record e w).

(** [this.emit('notification', notification)]: the listeners are called, and
    the exception of a listener is the exception of [emit]. *)
Definition emit (notification : INotification) : Async unit :=
  fun w => (heard w notification, record (Emitted notification) w).

(** [this.db.get(key)]; a TypeError when [this.db] is undefined. *)
Definition db_get (key : option string) : Async (option bool) :=
  fun w =>
    match db w with
    | Some store => (Ok (store_get store key), record (Queried key) w)
    | None => (Thrown "TypeError: this.db is undefined", w)
    end.

(** [this.db.put(key, true)]; a TypeError when [this.db] is undefined. *)
Definition db_put (key : option string) : Async unit :=
  fun w =>
    match db w with
    | Some store =>
        (Ok tt, record (Stored key) (set_db (Some (store_put key true store)) w))
    | None => (Thrown "TypeError: this.db is undefined", w)
    end.

Declare Scope async_scope.

Delimit Scope async_scope with async.

Notation "x <- m ;; k" := (bind m (fun x => k))
  (at level 20, m at level 99, k at level 200) : async_scope.

Notation "m ;;; k" := (bind m (fun _ => k))
  (at level 99, k at level 200, right associativity) : async_scope.

(** [for (const x of xs) { body }] *)
Fixpoint for_of {A} (xs : list A) (body : A -> Async unit) : Async unit :=
  match xs with
  | [] => ret tt
  | x :: rest => (body x ;;; for_of rest body)%async
  end.

(** ** init

    The container, directory and permission commands of solid-bashlib are
    calls to the pod. [init] is modelled with the calls it makes, in order,
    and the replies to them are supplied from outside; every call is made
    with [this.fetch]. *)

(** The permission [init] grants: the fields it sets. *)
Module PermissionOperation.
Record t := { type : string; append : bool; read : bool; id : option string }.
End PermissionOperation.

Inductive PodCall :=
  | ListCall (url : string)
  | MakeDirectoryCall (url : string)
  | ChangePermissionsCall (url : string)
                          (operations : list PermissionOperation.t).

(** A chain of awaited calls: the calls made, and the value or the exception
    it ends with. A call that throws ends the chain. *)
Definition Calls (A : Type) : Type := list PodCall * Outcome A.

Definition call {A} (c : PodCall) (reply : Outcome A) : Calls A := ([c], reply).

Definition no_call {A} (a : A) : Calls A := ([], Ok a).

Definition calls_bind {A B} (m : Calls A) (k : A -> Calls B) : Calls B :=
  match m with
  | (cs, Ok a) => let '(cs', r) := k a in (cs ++ cs', r)
  | (cs, Thrown e) => (cs, Thrown e)
  end.

Declare Scope calls_scope.

Delimit Scope calls_scope with calls.

Notation "x <- m ;; k" := (calls_bind m (fun x => k))
  (at level 20, m at level 99, k at level 200) : calls_scope.

Notation "m ;;; k" := (calls_bind m (fun _ => k))
  (at level 99, k at level 200, right associativity) : calls_scope.

(** [init(baseUrl, inboxPath = 'inbox/')]; [listing], [made] and [permitted]
    are the replies of [list], [makeDirectory] and [changePermissions]. *)
Definition init (w : InboxWatcher) (baseUrl : string) (inboxPath : option string)
    (listing : Outcome (list ResourceInfo.t)) (made permitted : Outcome unit)
  : Calls string :=
  let inboxPath := match inboxPath with Some p => p | None => "inbox/" end in
  (containers <- call (ListCall baseUrl) listing ;;
   let inboxUrl := baseUrl +:+ inboxPath in
   match find (fun el => String.eqb (ResourceInfo.url el) inboxUrl) containers with
   | None => call (MakeDirectoryCall inboxUrl) made
   | Some _ => no_call tt
   end ;;;
   let permission :=
     {| PermissionOperation.type := "agent";
        PermissionOperation.append := true;
        PermissionOperation.read := true;
        PermissionOperation.id := webId w |} in
   call (ChangePermissionsCall inboxUrl [permission]) permitted ;;;
   no_call inboxUrl)%calls.

(** ** The derivation of id, in words *)

(** A quad that types its subject as one of the recognized activities. *)
Definition typed_activity (quad : Quad) : bool :=
  String.eqb (value (predicate quad)) (RDF_NS +:+ "type")
  && includes AS_types (value (object quad)).

(** The derivation of [id] in words: the subject of the first activity-typed
    statement whose subject is not the empty string; failing that, the
    (empty) subject of an activity-typed statement if there is one; failing
    that, undefined. *)
Definition derived_id (data : list Quad) : option string :=
  match find (fun q => typed_activity q && truthy (Some (value (subject q)))) data with
  | Some q => Some (value (subject q))
  | None =>
      match find typed_activity data with
      | Some q => Some ""
      | None => None
      end
  end.

(** ** Reading a log *)

(** The keys marked seen in a log, in order. *)
Fixpoint marked (l : list Effect) : list (option string) :=
  match l with
  | [] => []
  | Stored k :: rest => k :: marked rest
  | _ :: rest => marked rest
  end.

(** The events of a log, each with the key that is marked right after it. *)
Fixpoint deliveries (l : list Effect) : list (INotification * option string) :=
  match l with
  | [] => []
  | Emitted n :: rest =>
      match rest with
      | Stored k :: _ => (n, k) :: deliveries rest
      | _ => deliveries rest
      end
  | _ :: rest => deliveries rest
  end.

(** The events of a log, each with the key looked up right before it. *)
Fixpoint keyed (l : list Effect) : list (INotification * option string) :=
  match l with
  | [] => []
  | Queried k :: rest =>
      match rest with
      | Emitted n :: _ => (n, k) :: keyed rest
      | _ => keyed rest
      end
  | _ :: rest => keyed rest
  end.

(** The requests for inbox items in a log, in order. *)
Fixpoint requested (l : list Effect) : list string :=
  match l with
  | [] => []
  | FetchRequested u :: rest => u :: requested rest
  | _ :: rest => requested rest
  end.

(** The listing requests in a log, in order: one per tick begun. *)
Fixpoint listed (l : list Effect) : list string :=
  match l with
  | [] => []
  | ListRequested u :: rest => u :: listed rest
  | _ :: rest => listed rest
  end.

(** ** Sample data *)

Definition iri (v : string) : Term := {| termType := NamedNode; value := v |}.

Definition default_graph : Term := {| termType := DefaultGraph; value := "" |}.

Definition triple (s p o : string) : Quad :=
  {| subject := iri s; predicate := iri p; object := iri o; graph := default_graph |}.

Definition rdf_type := "http://www.w3.org/1999/02/22-rdf-syntax-ns#type".

Definition as_Create := "https://www.w3.org/ns/activitystreams#Create".

Definition as_Update := "https://www.w3.org/ns/activitystreams#Update".

Definition as_actor := "https://www.w3.org/ns/activitystreams#actor".

(** A toy parser: an empty body is a syntax error, the body [{}] holds no
    statement, and any other body is read as the IRI of a Create activity
    whose actor is the base IRI. *)
Definition sample_jsonld (baseIRI mediaType body : string) : Stream Quad :=
  if String.eqb body "" then
    {| chunks := []; ending := Error_ "Unexpected end of JSON input" |}
  else if String.eqb body "{}" then
    {| chunks := []; ending := End |}
  else
    {| chunks := [triple body as_actor baseIRI; triple body rdf_type as_Create];
       ending := End |}.

Definition sample_response (url body : string) : Response.t :=
  {| Response.url := url; Response.ok := true;
     Response.headers := [("content-type", "application/ld+json")];
     Response.text := body |}.

Definition sample_session : SessionInfo.t :=
  {| SessionInfo.fetch := FetchAs (Some "https://pod.example/profile/card#me");
     SessionInfo.webId := Some "https://pod.example/profile/card#me" |}.

(** A disk without files, and one with a store at the path the sample
    credentials name. *)
Definition empty_disk : Disk := fun _ => Ok ∅.

Definition sample_disk : Disk :=
  fun path =>
    if String.eqb path "./.cache/inbox.dsb"
    then Ok {[ Some "urn:a" := true ]}
    else Ok ∅.

(** A watcher with an empty store, and one without a store. *)
Definition caching_watcher : InboxWatcher :=
  constructed sample_session (Some ∅).

Definition plain_watcher : InboxWatcher :=
  constructed sample_session None.

(** A listener that throws at every notification, and a watcher with an
    empty store on which it is registered. *)
Definition failing_listener : Listeners :=
  fun _ _ => Thrown "listener failed".

Definition fragile_watcher : InboxWatcher :=
  on_notification failing_listener caching_watcher.

Definition inbox := "https://pod.example/inbox/".

Definition item1 := {| ResourceInfo.url := "https://pod.example/inbox/1" |}.

Definition item2 := {| ResourceInfo.url := "https://pod.example/inbox/2" |}.

Definition item3 := {| ResourceInfo.url := "https://pod.example/inbox/3" |}.

(** The notification the toy parser reads from response [url] with body
    [activity]. *)
Definition sample_notification (url activity : string) : INotification :=
  {| quads := [triple activity as_actor url; triple activity rdf_type as_Create];
     id := Some activity |}.

Definition reply1 : Outcome Response.t :=
  Ok (sample_response "https://pod.example/inbox/1" "urn:a").

Definition reply2 : Outcome Response.t :=
  Ok (sample_response "https://pod.example/inbox/2" "urn:a").

Definition reply3 : Outcome Response.t :=
  Ok (sample_response "https://pod.example/inbox/3" "urn:c").

Definition notification1 := sample_notification "https://pod.example/inbox/1" "urn:a".

Definition notification2 := sample_notification "https://pod.example/inbox/2" "urn:a".

Definition notification3 := sample_notification "https://pod.example/inbox/3" "urn:c".

Definition sample_credentials : Credentials.t :=
  {| Credentials.name := "watcher";
     Credentials.email := "alice@pod.example";
     Credentials.password := "secret";
     Credentials.idp := "https://pod.example/";
     Credentials.authUrl := None;
     Credentials.clientCredentialsTokenStorageLocation := None;
     Credentials.cachePath := Some "./.cache/inbox.dsb" |}.

Definition sample_generateCSSToken (options : Credentials.t) : Outcome string :=
  Ok ("token:" +:+ Credentials.email options).

Definition sample_authenticateToken (token baseUrl : string)
  : Outcome SessionInfo.t :=
  Ok sample_session.

Definition sample_serializer (context : string) (quads : list Quad)
  : Stream string :=
  {| chunks := ["{ @context: "; context; " }"]; ending := End |}.

(** A server that creates the resource and answers with its location. *)
Definition sample_http (f : AuthFetch) (url : string) (request : Request.t)
  : Outcome Response.t :=
  Ok {| Response.url := url; Response.ok := true;
        Response.headers := [("location", url +:+ "42")];
        Response.text := "" |}.

(** * The watcher *)

Section Watcher.

(** ** start: the polling callback *)

(** [JsonLdParser.fromHttpResponse(baseIRI, mediaType)] fed with a body:
    the stream of quads it delivers. *)
Variable jsonld : string -> string -> string -> Stream Quad.

(** [response.headers.get('content-type') || "application/ld+json"] *)
Definition content_type (response : Response.t) : string :=
  match js_or (headers_get (Response.headers response) "content-type")
              (Some "application/ld+json") with
  | Some t => t
  | None => "application/ld+json"
  end.

(** [strategy == 'notification_id' ? item.url : notification.id] *)
Definition idToCheck (strategy : string) (item : ResourceInfo.t)
    (notification : INotification) : option string :=
  if String.eqb strategy "notification_id"
  then Some (ResourceInfo.url item)
  else id notification.

(** The loop body from the point where [this.fetch(item.url)] settles with
    [reply]: parse the body, choose the key and look it up; unless it is
    seen, emit, and then mark. *)
Definition receive (strategy : string) (item : ResourceInfo.t)
    (reply : Outcome Response.t) : Async unit :=
  (response <- await reply ;;
   let jsonldParser := jsonld (Response.url response) (content_type response) in
   let bodyStream := Response.text response in
   notification <- await (parseNotification (jsonldParser bodyStream)) ;;
   let idToCheck := idToCheck strategy item notification in
   w <- this ;;
   match db w with
   | Some _ =>
       found <- db_get idToCheck ;;
       if negb (truthy_flag found)
       then (emit notification ;;; db_put idToCheck)
       else ret tt
   | None => ret tt
   end)%async.

(** One iteration of [for (const item of items)]; [reply] is what the
    network answers to the request for this item, if it is made. *)
Definition visit (strategy : string)
    (listed : ResourceInfo.t * Outcome Response.t) : Async unit :=
  let '(item, reply) := listed in
  (w <- this ;;
   match fetch w with
   | Some _ =>
       perform (FetchRequested (ResourceInfo.url item)) ;;;
       receive strategy item reply
   | None => ret tt
   end)%async.

(** The callback given to [poll], run once: a tick. [listing] is the reply
    of [list(inboxUrl, ...)], each listed resource paired with the reply
    its request gets. *)
Definition tick (inboxUrl strategy : string)
    (listing : Outcome (list (ResourceInfo.t * Outcome Response.t)))
  : Async unit :=
  (perform (ListRequested inboxUrl) ;;;
   items <- await listing ;;
   for_of items (visit strategy))%async.

(** Consecutive ticks of one polling loop on the same watcher; a tick that
    throws ends the loop. This is what the loop of [poll] does while the
    flag is not set (lemma [run_ticks]). *)
Fixpoint ticks (inboxUrl strategy : string)
    (listings : list (Outcome (list (ResourceInfo.t * Outcome Response.t))))
  : Async unit :=
  match listings with
  | [] => ret tt
  | l :: rest => (tick inboxUrl strategy l ;;; ticks inboxUrl strategy rest)%async
  end.

(** ** The polling loop

    [poll(fn, delay, shouldStopPolling)] of the poll package:
    [do { await fn(); if (await shouldStopPolling()) break; await delay }
     while (!(await shouldStopPolling()))].
    The loop is suspended at each await; between two suspensions it runs
    without interruption. A loop is described by where it is suspended. *)
Inductive Phase :=
  | Listing                 (* in fn, awaiting list(inboxUrl, ...) *)
  | Fetching (item : ResourceInfo.t) (rest : list ResourceInfo.t)
                            (* in fn, awaiting this.fetch(item.url) *)
  | Sleeping                (* between two calls of fn, awaiting the delay *)
  | Resolved                (* the loop has ended: shouldStopPolling() held *)
  | Rejected (e : Error).   (* the loop has ended: fn threw *)

Record Poll := { inboxUrl : string; strategy : string; phase : Phase }.

Definition set_phase (ph : Phase) (p : Poll) : Poll :=
  {| inboxUrl := inboxUrl p; strategy := strategy p; phase := ph |}.

(** One watcher and the polling loops started on it. *)
Record System := { self : InboxWatcher; polls : list Poll }.

(** [fn] has returned: poll asks [shouldStopPolling], that is
    [() => this.stopPolling]. *)
Definition after_fn (w : InboxWatcher) : Phase * InboxWatcher :=
  (if stopPolling w then Resolved else Sleeping, w).

(** Enter [for (const item of items)] with [items] left: up to the next
    await, or to the end of [fn]. *)
Fixpoint next_item (items : list ResourceInfo.t) (w : InboxWatcher)
  : Phase * InboxWatcher :=
  match items with
  | [] => after_fn w
  | item :: rest =>
      match fetch w with
      | Some _ =>
          (Fetching item rest, record (FetchRequested (ResourceInfo.url item)) w)
      | None => next_item rest w
      end
  end.

(** Call [fn]: it runs up to its first await. *)
Definition call_fn (inboxUrl : string) (w : InboxWatcher)
  : Phase * InboxWatcher :=
  (Listing, record (ListRequested inboxUrl) w).

(** What can happen to a system: a call of [start] or [stop] by the user, or
    the settling of the await that loop [i] is suspended on. Listeners are
    registered on the watcher beforehand. *)
Inductive Event :=
  | CallStart (inboxUrl : string) (strategy : option string)
  | CallStop
  | Listed (i : nat) (reply : Outcome (list ResourceInfo.t))
  | Fetched (i : nat) (reply : Outcome Response.t)
  | Timer (i : nat).

(** Loop [p], resumed by a reply. A reply the loop is not waiting for
    cannot occur and changes nothing. *)
Definition resume (p : Poll) (ev : Event) (w : InboxWatcher)
  : Phase * InboxWatcher :=
  match phase p, ev with
  | Listing, Listed _ (Ok items) => next_item items w
  | Listing, Listed _ (Thrown e) => (Rejected e, w)
  | Fetching item rest, Fetched _ reply =>
      match receive (strategy p) item reply w with
      | (Ok _, w') => next_item rest w'
      | (Thrown e, w') => (Rejected e, w')
      end
  | Sleeping, Timer _ =>
      if stopPolling w then (Resolved, w) else call_fn (inboxUrl p) w
  | ph, _ => (ph, w)
  end.

Definition resume_at (i : nat) (ev : Event) (sys : System) : System :=
  match polls sys !! i with
  | Some p =>
      let '(ph, w) := resume p ev (self sys) in
      {| self := w; polls := <[i := set_phase ph p]> (polls sys) |}
  | None => sys
  end.

(** [start(inboxUrl, strategy = 'activity')]: clear the flag, call [poll]. *)
Definition start (inboxUrl : string) (strategy : option string)
    (sys : System) : System :=
  let strategy := match strategy with Some s => s | None => "activity" end in
  let w := set_stopPolling false (self sys) in
  let '(ph, w) := call_fn inboxUrl w in
  {| self := w;
     polls := polls sys ++
              [{| inboxUrl := inboxUrl; strategy := strategy; phase := ph |}] |}.

Definition step (sys : System) (ev : Event) : System :=
  match ev with
  | CallStart inboxUrl strategy => start inboxUrl strategy sys
  | CallStop => {| self := stop (self sys); polls := polls sys |}
  | Listed i _ | Fetched i _ | Timer i => resume_at i ev sys
  end.

Definition run (sys : System) (evs : list Event) : System :=
  fold_left step evs sys.

(** A freshly constructed watcher: no loop yet. *)
Definition idle (w : InboxWatcher) : System := {| self := w; polls := [] |}.

(** The replies that carry loop [i] through one tick with the given
    listing. *)
Definition tick_events (i : nat)
    (listing : Outcome (list (ResourceInfo.t * Outcome Response.t)))
  : list Event :=
  match listing with
  | Ok items => Listed i (Ok (map fst items)) :: map (fun x => Fetched i (snd x)) items
  | Thrown e => [Listed i (Thrown e)]
  end.

(** The events of consecutive ticks of a sleeping loop [i]: for each tick the
    timer, then the replies. *)
Fixpoint ticks_events (i : nat)
    (listings : list (Outcome (list (ResourceInfo.t * Outcome Response.t))))
  : list Event :=
  match listings with
  | [] => []
  | l :: rest => Timer i :: tick_events i l ++ ticks_events i rest
  end.

(** ** Notions used to state the properties *)

(** What fetching and parsing an item yields: the notification, or the
    exception of the request or of the parser. *)
Definition parsed (reply : Outcome Response.t) : Outcome INotification :=
  (response <- reply ;;
   parseNotification
     (jsonld (Response.url response) (content_type response)
             (Response.text response)))%outcome.

(** [this.db.get(key)] is truthy. *)
Definition seen (store : Store) (key : option string) : bool :=
  truthy_flag (store_get store key).

(** The watcher after [emit] and [put], when the listeners have returned. *)
Definition delivered (n : INotification) (key : option string)
    (store : Store) (w : InboxWatcher) : InboxWatcher :=
  record (Stored key)
    (set_db (Some (store_put key true store)) (record (Emitted n) w)).

(** The watcher after the request for an item and the lookup of its key. *)
Definition looked_up (item : ResourceInfo.t) (key : option string)
    (w : InboxWatcher) : InboxWatcher :=
  record (Queried key) (record (FetchRequested (ResourceInfo.url item)) w).

(** No listener ever throws. *)
Definition never_throws (w : InboxWatcher) : Prop :=
  forall before n, listeners w before n = Ok tt.

(** The cases of one loop iteration. *)
Inductive visits (strategy : string) (item : ResourceInfo.t)
    (reply : Outcome Response.t) (w : InboxWatcher)
  : Outcome unit -> InboxWatcher -> Prop :=
  | visits_no_fetch :
      fetch w = None ->
      visits strategy item reply w (Ok tt) w
  | visits_failed e :
      is_Some (fetch w) ->
      parsed reply = Thrown e ->
      visits strategy item reply w (Thrown e)
        (record (FetchRequested (ResourceInfo.url item)) w)
  | visits_no_db n :
      is_Some (fetch w) ->
      parsed reply = Ok n ->
      db w = None ->
      visits strategy item reply w (Ok tt)
        (record (FetchRequested (ResourceInfo.url item)) w)
  | visits_seen n store :
      is_Some (fetch w) ->
      parsed reply = Ok n ->
      db w = Some store ->
      seen store (idToCheck strategy item n) = true ->
      visits strategy item reply w (Ok tt)
        (looked_up item (idToCheck strategy item n) w)
  | visits_new n store :
      is_Some (fetch w) ->
      parsed reply = Ok n ->
      db w = Some store ->
      seen store (idToCheck strategy item n) = false ->
      heard w n = Ok tt ->
      visits strategy item reply w (Ok tt)
        (delivered n (idToCheck strategy item n) store
           (looked_up item (idToCheck strategy item n) w))
  | visits_unheard n store e :
      is_Some (fetch w) ->
      parsed reply = Ok n ->
      db w = Some store ->
      seen store (idToCheck strategy item n) = false ->
      heard w n = Thrown e ->
      visits strategy item reply w (Thrown e)
        (record (Emitted n) (looked_up item (idToCheck strategy item n) w)).

(** Every state the consecutive callbacks of one polling loop reach is
    reached by logging listing requests and visiting items; the first
    exception ends the loop. The outcome is that of the last callback. *)
Inductive evolves (strategy : string)
  : InboxWatcher -> Outcome unit -> InboxWatcher -> Prop :=
  | evolves_refl w : evolves strategy w (Ok tt) w
  | evolves_list inboxUrl w o w' :
      evolves strategy (record (ListRequested inboxUrl) w) o w' ->
      evolves strategy w o w'
  | evolves_visit item reply w w1 o w' :
      visits strategy item reply w (Ok tt) w1 ->
      evolves strategy w1 o w' ->
      evolves strategy w o w'
  | evolves_thrown item reply e w w1 :
      visits strategy item reply w (Thrown e) w1 ->
      evolves strategy w (Thrown e) w1
  | evolves_failed e w : evolves strategy w (Thrown e) w.

(** The first effect of a log is neither an event nor a marking. *)
Definition begins_quietly (l : list Effect) : Prop :=
  match l with
  | Emitted _ :: _ | Stored _ :: _ => False
  | _ => True
  end.

(** What the ticks of one loop do to the store and to the log. Every event
    comes right after the lookup of its key; the keys of the events are
    pairwise distinct and were not seen before; every event is directly
    followed by the marking of its key, except the last one when its
    listeners threw; the store afterwards holds what it held before and the
    keys marked. *)
Definition dedup_run (store : Store) (w : InboxWatcher) (o : Outcome unit)
    (w' : InboxWatcher) : Prop :=
  exists store' new unmarked,
    db w' = Some store'
    /\ log w' = log w ++ new
    /\ emitted new = map fst (keyed new)
    /\ keyed new = deliveries new ++ unmarked
    /\ length unmarked <= 1
    /\ (o = Ok tt -> unmarked = [])
    /\ marked new = map snd (deliveries new)
    /\ NoDup (map snd (keyed new))
    /\ (forall k, k ∈ map snd (keyed new) -> seen store k = false)
    /\ (forall k, seen store' k = true <-> seen store k = true \/ k ∈ marked new)
    /\ begins_quietly new.

(** An event that settles an await of loop [i] (not a call by the user). *)
Definition reply_to (i : nat) (ev : Event) : Prop :=
  match ev with
  | Listed j _ | Fetched j _ | Timer j => j = i
  | _ => False
  end.

(** A reply from the network (not the timer). *)
Definition network_reply (ev : Event) : Prop :=
  match ev with
  | Listed _ _ | Fetched _ _ => True
  | _ => False
  end.

Definition not_start (ev : Event) : Prop :=
  match ev with
  | CallStart _ _ => False
  | _ => True
  end.

(** One loop driven by a sequence of replies. *)
Definition drive (pw : Poll * InboxWatcher) (evs : list Event)
  : Poll * InboxWatcher :=
  fold_left (fun pw ev =>
               let '(ph, w) := resume (fst pw) ev (snd pw) in
               (set_phase ph (fst pw), w))
            evs pw.

Definition phase_of (i : nat) (sys : System) : option Phase :=
  phase <$> polls sys !! i.

(** The phase in which a callback that returned or threw leaves its loop. *)
Definition phase_after (o : Outcome unit) (w : InboxWatcher) : Phase :=
  match o with
  | Ok _ => if stopPolling w then Resolved else Sleeping
  | Thrown e => Rejected e
  end.

Definition ended (ph : Phase) : Prop :=
  match ph with
  | Resolved | Rejected _ => True
  | _ => False
  end.

(** The loop is inside its callback. *)
Definition in_tick (ph : Phase) : Prop :=
  match ph with
  | Listing | Fetching _ _ => True
  | _ => False
  end.

(** Where a loop ends up when the flag was set in the meantime: it resolves
    instead of going to sleep. *)
Definition halt (ph : Phase) : Phase :=
  match ph with
  | Sleeping => Resolved
  | _ => ph
  end.

(** A loop [p] and the same loop [p'] in the run where [stop()] was called:
    as it was, or resolved instead of sleeping. *)
Definition halted (p p' : Poll) : Prop :=
  p' = p \/ p' = set_phase (halt (phase p)) p.



(** Every state a system reaches from a watcher is reached by logging
    requests and lookups, writing the flag, delivering a notification whose
    key is not seen, and emitting a notification at which a listener
    throws. *)
Inductive reaches : InboxWatcher -> InboxWatcher -> Prop :=
  | reaches_refl w : reaches w w
  | reaches_request e w w' :
      emitted [e] = [] -> marked [e] = [] ->
      reaches (record e w) w' ->
      reaches w w'
  | reaches_flag b w w' :
      reaches (set_stopPolling b w) w' ->
      reaches w w'
  | reaches_deliver n k store w w' :
      db w = Some store ->
      seen store k = false ->
      reaches (delivered n k store w) w' ->
      reaches w w'
  | reaches_unheard n e w w' :
      heard w n = Thrown e ->
      reaches (record (Emitted n) w) w' ->
      reaches w w'.

(** The calls of [start()] among some events. *)
Fixpoint starts (evs : list Event) : nat :=
  match evs with
  | [] => 0
  | CallStart _ _ :: rest => S (starts rest)
  | _ :: rest => starts rest
  end.

(** The flag after some events: what the last call of [start()] or [stop()]
    among them wrote, or the flag before when there is no such call. *)
Fixpoint flag_after (evs : list Event) (flag : bool) : bool :=
  match evs with
  | [] => flag
  | CallStart _ _ :: rest => flag_after rest false
  | CallStop :: rest => flag_after rest true
  | _ :: rest => flag_after rest flag
  end.

(** * Properties of the watcher *)

(** ** Reading a log *)

Lemma emitted_app l l' : emitted (l ++ l') = emitted l ++ emitted l'.
Proof.
  induction l as [|e l IH]; [done|]. destruct e; cbn; by rewrite ?IH.
Qed.


Lemma marked_app l l' : marked (l ++ l') = marked l ++ marked l'.
Proof.
  induction l as [|e l IH]; [done|]. destruct e; cbn; by rewrite ?IH.
Qed.

Lemma listed_app l l' : listed (l ++ l') = listed l ++ listed l'.
Proof.
  induction l as [|e l IH]; [done|]. destruct e; cbn; by rewrite ?IH.
Qed.

(** Logging anything but an event changes nothing for the listeners. *)
Lemma heard_record e w n :
  emitted [e] = [] -> heard (record e w) n = heard w n.
Proof.
  intros He. unfold heard. cbn [record listeners log].
  by rewrite emitted_app, He, app_nil_r.
Qed.

(** ** One item *)

Lemma receive_eq strategy item reply w :
  receive strategy item reply w =
    match parsed reply with
    | Thrown e => (Thrown e, w)
    | Ok n =>
        match db w with
        | Some store =>
            if seen store (idToCheck strategy item n)
            then (Ok tt, record (Queried (idToCheck strategy item n)) w)
            else
              match heard w n with
              | Ok _ =>
                  (Ok tt,
                   delivered n (idToCheck strategy item n) store
                     (record (Queried (idToCheck strategy item n)) w))
              | Thrown e =>
                  (Thrown e,
                   record (Emitted n)
                     (record (Queried (idToCheck strategy item n)) w))
              end
        | None => (Ok tt, w)
        end
    end.
Proof.
  unfold receive, parsed, bind, await, this.
  destruct reply as [response|e]; cbn [and_then]; [|done].
  destruct (parseNotification _) as [n|e]; [|done].
  destruct (db w) as [store|] eqn:Hdb; [|done].
  unfold db_get. rewrite Hdb.
  unfold seen. destruct (truthy_flag _); cbn [negb]; [done|].
  unfold emit, db_put, delivered. rewrite heard_record by done.
  destruct (heard w n) as [[]|e]; [|done].
  cbn [record db]. by rewrite Hdb.
Qed.

Lemma visit_eq strategy item reply w :
  visit strategy (item, reply) w =
    match fetch w with
    | Some _ =>
        receive strategy item reply
          (record (FetchRequested (ResourceInfo.url item)) w)
    | None => (Ok tt, w)
    end.
Proof. unfold visit, bind, this. by destruct (fetch w). Qed.

Lemma visit_visits strategy item reply w :
  visits strategy item reply w
    (fst (visit strategy (item, reply) w))
    (snd (visit strategy (item, reply) w)).
Proof.
  rewrite visit_eq.
  destruct (fetch w) as [f|] eqn:Hf; [|by constructor].
  rewrite receive_eq. cbn [record db].
  assert (is_Some (fetch w)) as Hsome by (by rewrite Hf).
  destruct (parsed reply) as [n|e] eqn:Hp; [|by econstructor].
  destruct (db w) as [store|] eqn:Hdb; [|by econstructor].
  destruct (seen store _) eqn:Hseen.
  - by eapply visits_seen.
  - rewrite heard_record by done.
    destruct (heard w n) as [[]|e] eqn:Hh.
    + by eapply visits_new.
    + by eapply visits_unheard.
Qed.

Lemma for_of_cons strategy x rest w :
  for_of (x :: rest) (visit strategy) w =
    match visit strategy x w with
    | (Ok _, w') => for_of rest (visit strategy) w'
    | (Thrown e, w') => (Thrown e, w')
    end.
Proof. reflexivity. Qed.

Lemma tick_eq inboxUrl strategy listing w :
  tick inboxUrl strategy listing w =
    match listing with
    | Ok items =>
        for_of items (visit strategy) (record (ListRequested inboxUrl) w)
    | Thrown e => (Thrown e, record (ListRequested inboxUrl) w)
    end.
Proof. by destruct listing. Qed.

(** ** Runs *)

Lemma for_of_evolves strategy items : forall w,
  evolves strategy w (fst (for_of items (visit strategy) w))
                     (snd (for_of items (visit strategy) w)).
Proof.
  induction items as [|[item reply] items IH]; intros w.
  - apply evolves_refl.
  - rewrite for_of_cons.
    pose proof (visit_visits strategy item reply w) as Hv.
    destruct (visit strategy (item, reply) w) as [[[]|e] w1];
      cbn [fst snd] in *.
    + eapply evolves_visit; [exact Hv|apply IH].
    + eapply evolves_thrown. exact Hv.
Qed.

Lemma tick_evolves inboxUrl strategy listing w :
  evolves strategy w (fst (tick inboxUrl strategy listing w))
                     (snd (tick inboxUrl strategy listing w)).
Proof.
  rewrite tick_eq. eapply evolves_list.
  destruct listing as [items|e]; [apply for_of_evolves|apply evolves_failed].
Qed.



(** *** Fields a run never writes *)

Lemma visits_frame strategy item reply w o w' :
  visits strategy item reply w o w' ->
  webId w' = webId w /\ fetch w' = fetch w /\ freq w' = freq w
  /\ stopPolling w' = stopPolling w.
Proof. by destruct 1. Qed.

Lemma evolves_frame strategy w o w' :
  evolves strategy w o w' ->
  webId w' = webId w /\ fetch w' = fetch w /\ freq w' = freq w
  /\ stopPolling w' = stopPolling w.
Proof.
  induction 1 as [w|u w o w' _ IH|item reply w w1 o w' Hv _ IH
                 |item reply e w w1 Hv|e w]; [done|done| |by eapply visits_frame|done].
  apply visits_frame in Hv. destruct IH as (-> & -> & -> & ->). exact Hv.
Qed.

(** *** With a store *)

Lemma seen_put store k k' :
  seen (store_put k true store) k' = bool_decide (k = k') || seen store k'.
Proof.
  unfold seen, store_get, store_put.
  destruct (decide (k = k')) as [->|Hne].
  - by rewrite lookup_insert_eq, bool_decide_eq_true_2.
  - by rewrite lookup_insert_ne, bool_decide_eq_false_2.
Qed.


Lemma seen_true_iff store k : seen store k = true <-> store_get store k = Some true.
Proof.
  unfold seen, truthy_flag. destruct (store_get store k) as [[]|]; naive_solver.
Qed.

Lemma dedup_run_stay store w o :
  db w = Some store -> dedup_run store w o w.
Proof.
  intros Hdb. exists store, [], []. rewrite app_nil_r.
  cbn [emitted marked deliveries keyed map app length].
  do 4 (split; [done|]). split; [lia|]. do 2 (split; [done|]).
  split; [apply NoDup_nil_2|].
  split; [by intros k ?%elem_of_nil|].
  split; [|done].
  intros k. split; [by left|]. by intros [?|?%elem_of_nil].
Qed.

(** A request logged first changes nothing of the above. *)
Lemma dedup_run_request store e w o w' :
  (exists u, e = ListRequested u \/ e = FetchRequested u) ->
  dedup_run store (record e w) o w' ->
  dedup_run store w o w'.
Proof.
  intros He (store' & new & unmarked & Hdb' & Hlog & Hrest).
  exists store', (e :: new), unmarked.
  cbn [record log] in Hlog. rewrite Hlog, <- app_assoc.
  split; [done|]. split; [done|].
  assert (emitted (e :: new) = emitted new
          /\ marked (e :: new) = marked new
          /\ deliveries (e :: new) = deliveries new
          /\ keyed (e :: new) = keyed new
          /\ begins_quietly (e :: new))
    as (-> & -> & -> & -> & Hq).
  { by destruct He as (u & [-> | ->]). }
  destruct Hrest as (? & ? & ? & ? & ? & ? & ? & ? & ?). done.
Qed.

(** So does a lookup that is followed by no event. *)
Lemma dedup_run_lookup store k w o w' :
  dedup_run store (record (Queried k) w) o w' ->
  dedup_run store w o w'.
Proof.
  intros (store' & new & unmarked & Hdb' & Hlog & Hrest).
  exists store', (Queried k :: new), unmarked.
  cbn [record log] in Hlog. rewrite Hlog, <- app_assoc.
  split; [done|]. split; [done|].
  destruct Hrest as (? & ? & ? & ? & ? & ? & ? & ? & Hq).
  assert (keyed (Queried k :: new) = keyed new) as ->.
  { by destruct new as [|[] new]. }
  done.
Qed.

Lemma evolves_dedup strategy w o w' :
  evolves strategy w o w' ->
  forall store, db w = Some store -> dedup_run store w o w'.
Proof.
  induction 1 as [w|u w o w' _ IH|item reply w w1 o w' Hv _ IH
                 |item reply e w w1 Hv|e w]; intros store Hdb.
  - by apply dedup_run_stay.
  - apply (dedup_run_request _ (ListRequested u)); [by eauto|by apply IH].
  - inversion Hv as [Hf Ho Hw|e|n Hf Hp Hd|n st Hf Hp Hd Hs Ho Hw
                    |n st Hf Hp Hd Hs Hh Ho Hw|n st e]; subst.
    + by apply IH.
    + congruence.
    + apply (dedup_run_request _ (FetchRequested (ResourceInfo.url item)));
        [by eauto|].
      eapply dedup_run_lookup. by apply IH.
    + assert (st = store) as -> by congruence.
      set (k := idToCheck strategy item n) in *.
      destruct (IH (store_put k true store) eq_refl)
        as (store' & new & unmarked & Hdb' & Hlog & He & Hk & Hlen & Hok
            & Hm & Hnd & Hun & Hst & Hq).
      exists store',
        (FetchRequested (ResourceInfo.url item) :: Queried k :: Emitted n
           :: Stored k :: new), unmarked.
      split; [done|].
      split; [cbn [delivered looked_up record log set_db] in Hlog;
              rewrite Hlog; by rewrite <- !app_assoc|].
      cbn [emitted marked deliveries keyed map fst snd].
      split; [by rewrite He|]. split; [by rewrite Hk|].
      do 2 (split; [done|]). split; [by rewrite Hm|].
      assert (k ∉ map snd (keyed new)) as Hfresh.
      { intros Hin. apply Hun in Hin. rewrite seen_put in Hin.
        by rewrite bool_decide_eq_true_2 in Hin. }
      split; [by apply NoDup_cons|].
      split.
      { intros k' [->|Hin]%elem_of_cons; [done|].
        apply Hun in Hin. rewrite seen_put in Hin.
        by apply orb_false_iff in Hin as [_ ?]. }
      split; [|done].
      intros k'. rewrite Hst, seen_put, orb_true_iff, bool_decide_eq_true, elem_of_cons.
      intuition congruence.
  - inversion Hv as [|e' Hf Hp Ho Hw| | | |n st e' Hf Hp Hd Hs Hh Ho Hw]; subst.
    + apply (dedup_run_request _ (FetchRequested (ResourceInfo.url item)));
        [by eauto|].
      by apply dedup_run_stay.
    + assert (st = store) as -> by congruence.
      set (k := idToCheck strategy item n) in *.
      exists store,
        [FetchRequested (ResourceInfo.url item); Queried k; Emitted n],
        [(n, k)].
      split; [done|].
      split; [cbn [looked_up record log]; by rewrite <- !app_assoc|].
      cbn [emitted marked deliveries keyed map fst snd app length].
      do 2 (split; [done|]). split; [lia|]. do 2 (split; [done|]).
      split; [apply NoDup_singleton|].
      split; [by intros k' ->%list_elem_of_singleton|].
      split; [|done].
      intros k'. split; [by left|]. by intros [?|?%elem_of_nil].
  - by apply dedup_run_stay.
Qed.

(** ** The polling loop *)

Lemma set_phase_set_phase ph ph' p :
  set_phase ph (set_phase ph' p) = set_phase ph p.
Proof. done. Qed.

Lemma set_phase_id p : set_phase (phase p) p = p.
Proof. by destruct p. Qed.

(** Replies to loop [i] act on loop [i] and on the watcher only. *)
Lemma run_drive i evs : forall sys p,
  polls sys !! i = Some p ->
  Forall (reply_to i) evs ->
  run sys evs =
    {| self := snd (drive (p, self sys) evs);
       polls := <[i := fst (drive (p, self sys) evs)]> (polls sys) |}.
Proof.
  induction evs as [|ev evs IH]; intros sys p Hp Hevs.
  - cbn. rewrite list_insert_id by done. by destruct sys.
  - apply Forall_cons in Hevs as [Hev Hevs].
    unfold run, drive in *. cbn [fold_left fst snd].
    assert (step sys ev = resume_at i ev sys) as ->.
    { destruct ev; cbn in Hev; try done; by subst. }
    unfold resume_at. rewrite Hp.
    destruct (resume p ev (self sys)) as [ph w] eqn:Hr.
    erewrite IH; [|cbn [polls]; apply list_lookup_insert_eq;
                    by apply lookup_lt_Some in Hp|done].
    cbn [self polls]. by rewrite list_insert_insert_eq.
Qed.

Lemma drive_cons p w ev evs :
  drive (p, w) (ev :: evs) =
    drive (set_phase (fst (resume p ev w)) p,
           snd (resume p ev w)) evs.
Proof.
  unfold drive. cbn [fold_left fst snd].
  by destruct (resume p ev w).
Qed.

(** A loop that has ended is resumed by nothing. *)
Lemma drive_ended evs : forall p w,
  ended (phase p) -> drive (p, w) evs = (p, w).
Proof.
  induction evs as [|ev evs IH]; intros p w Hp; [done|].
  rewrite drive_cons.
  assert (resume p ev w = (phase p, w)) as ->.
  { unfold resume. destruct (phase p); try done; by destruct ev. }
  cbn [fst snd]. rewrite set_phase_id. by apply IH.
Qed.

(** A sleeping loop is resumed by the timer only. *)
Lemma drive_sleeping evs : forall p w,
  phase p = Sleeping -> Forall network_reply evs -> drive (p, w) evs = (p, w).
Proof.
  induction evs as [|ev evs IH]; intros p w Hp Hevs; [done|].
  apply Forall_cons in Hevs as [Hev Hevs]. rewrite drive_cons.
  assert (resume p ev w = (phase p, w)) as ->.
  { unfold resume. rewrite Hp. by destruct ev. }
  cbn [fst snd]. rewrite set_phase_id. by apply IH.
Qed.

Lemma next_item_no_fetch items w :
  fetch w = None -> next_item items w = after_fn w.
Proof. intros Hf. induction items as [|item items IH]; cbn; [done|]. by rewrite Hf. Qed.

Lemma for_of_no_fetch strategy items w :
  fetch w = None -> for_of items (visit strategy) w = (Ok tt, w).
Proof.
  intros Hf. induction items as [|[item reply] items IH]; [done|].
  by rewrite for_of_cons, visit_eq, Hf.
Qed.

(** The replies to the requests of a tick carry the loop through the items
    exactly as [for_of] does, and leave it sleeping, resolved or rejected. *)
Lemma drive_items i items : forall p w,
  let start := next_item (map fst items) w in
  let result := for_of items (visit (strategy p)) w in
  drive (set_phase (fst start) p, snd start)
        (map (fun x => Fetched i (snd x)) items)
  = (set_phase (phase_after (fst result) (snd result)) p, snd result).
Proof.
  induction items as [|[item reply] items IH]; intros p w; cbv zeta.
  - done.
  - cbn [map fst snd]. rewrite for_of_cons, visit_eq.
    destruct (fetch w) as [f|] eqn:Hf.
    + cbn [next_item]. rewrite Hf. cbn [fst snd]. rewrite drive_cons.
      unfold resume. cbn [set_phase phase strategy].
      destruct (receive (strategy p) item reply _) as [[[]|e] w2].
      * cbn [fst snd]. rewrite set_phase_set_phase. apply IH.
      * cbn [fst snd]. rewrite set_phase_set_phase. by rewrite drive_ended.
    + rewrite for_of_no_fetch by done.
      rewrite (next_item_no_fetch _ _ Hf). unfold after_fn. cbn [fst snd phase_after].
      destruct (stopPolling w).
      * by rewrite drive_ended.
      * rewrite drive_sleeping; [done|done|].
        constructor; [done|]. apply Forall_map. by apply Forall_true.
Qed.

(** A whole tick of a loop that has just called the listing. *)
Lemma drive_tick i listing p w :
  phase p = Listing ->
  let result :=
    match listing with
    | Ok items => for_of items (visit (strategy p)) w
    | Thrown e => (Thrown e, w)
    end in
  drive (p, w) (tick_events i listing)
  = (set_phase (phase_after (fst result) (snd result)) p, snd result).
Proof.
  intros Hp. destruct listing as [items|e]; cbv zeta; cbn [tick_events].
  - rewrite drive_cons. unfold resume. rewrite Hp.
    pose proof (drive_items i items (set_phase (next_item (map fst items) w).1 p) w) as H.
    cbv zeta in H. rewrite !set_phase_set_phase in H. exact H.
  - rewrite drive_cons. unfold resume. rewrite Hp. done.
Qed.

Lemma drive_app pw evs evs' : drive pw (evs ++ evs') = drive (drive pw evs) evs'.
Proof. unfold drive. apply fold_left_app. Qed.

Lemma tick_stopPolling inboxUrl strategy listing w :
  stopPolling (snd (tick inboxUrl strategy listing w)) = stopPolling w.
Proof.
  pose proof (tick_evolves inboxUrl strategy listing w) as H.
  by apply evolves_frame in H as (_ & _ & _ & ?).
Qed.

(** While the flag is not set, a sleeping loop ticks on: its watcher goes
    through [ticks]. *)
Lemma drive_ticks i listings : forall p w,
  phase p = Sleeping ->
  stopPolling w = false ->
  let result := ticks (inboxUrl p) (strategy p) listings w in
  drive (p, w) (ticks_events i listings)
  = (set_phase match fst result with
               | Ok _ => Sleeping
               | Thrown e => Rejected e
               end p,
     snd result).
Proof.
  induction listings as [|l listings IH]; intros p w Hp Hflag; cbv zeta.
  - cbn. by rewrite <- Hp, set_phase_id.
  - cbn [ticks_events ticks]. rewrite drive_cons.
    unfold resume at 1 2. rewrite Hp, Hflag. cbn [call_fn fst snd].
    rewrite drive_app, drive_tick by done.
    cbn [strategy set_phase]. unfold bind.
    pose proof (tick_stopPolling (inboxUrl p) (strategy p) l w) as Hflag'.
    rewrite tick_eq in *.
    destruct l as [items|e].
    + destruct (for_of items _ _) as [[[]|e] w1]; cbn [fst snd phase_after] in *.
      * rewrite Hflag', Hflag, set_phase_set_phase.
        rewrite (IH (set_phase Sleeping p) w1 eq_refl) by by rewrite Hflag'.
        by rewrite set_phase_set_phase.
      * rewrite set_phase_set_phase. by rewrite drive_ended.
    + cbn [fst snd phase_after]. rewrite set_phase_set_phase.
      by rewrite drive_ended.
Qed.

Lemma ticks_events_reply_to i listings :
  Forall (reply_to i) (ticks_events i listings).
Proof.
  induction listings as [|l listings IH]; cbn [ticks_events]; [done|].
  constructor; [done|]. apply Forall_app. split; [|done].
  destruct l as [items|e]; cbn [tick_events].
  - constructor; [done|]. apply Forall_map. by apply Forall_true.
  - by constructor.
Qed.

Lemma run_ticks i listings sys p :
  polls sys !! i = Some p ->
  phase p = Sleeping ->
  stopPolling (self sys) = false ->
  self (run sys (ticks_events i listings))
  = snd (ticks (inboxUrl p) (strategy p) listings (self sys)).
Proof.
  intros Hi Hp Hflag.
  rewrite (run_drive i _ sys p Hi (ticks_events_reply_to i listings)).
  cbn [self]. by rewrite drive_ticks.
Qed.

(** ** stop() during a tick *)

Lemma stop_stopped w : stopPolling w = true -> stop w = w.
Proof. destruct w. cbn. by intros ->. Qed.

Lemma receive_stop strategy item reply w :
  receive strategy item reply (stop w) =
    (fst (receive strategy item reply w),
     stop (snd (receive strategy item reply w))).
Proof.
  rewrite !receive_eq. cbn [stop set_stopPolling db].
  destruct (parsed reply) as [n|e]; [|done].
  destruct (db w) as [store|]; [|done].
  destruct (seen store _); [done|].
  change (heard (stop w) n) with (heard w n).
  by destruct (heard w n) as [[]|e].
Qed.

Lemma next_item_stop items w :
  next_item items (stop w) =
    (halt (fst (next_item items w)), stop (snd (next_item items w))).
Proof.
  induction items as [|item items IH]; cbn [next_item].
  - unfold after_fn. cbn. by destruct (stopPolling w).
  - cbn [stop set_stopPolling fetch]. by destruct (fetch w).
Qed.

Lemma resume_stop p ev w :
  network_reply ev ->
  resume (set_phase (halt (phase p)) p) ev (stop w) =
    (halt (fst (resume p ev w)), stop (snd (resume p ev w))).
Proof.
  intros Hev. unfold resume. cbn [set_phase phase strategy inboxUrl].
  destruct (phase p) as [|item rest| | |e] eqn:Hp; cbn [halt].
  - destruct ev as [| |j [items|e]|j reply|]; try done. apply next_item_stop.
  - destruct ev as [| |j r|j reply|]; try done.
    rewrite receive_stop.
    destruct (receive (strategy p) item reply w) as [[[]|e] w'];
      cbn [fst snd]; [apply next_item_stop|done].
  - by destruct ev.
  - by destruct ev.
  - by destruct ev.
Qed.

Lemma resume_ended p ev w :
  ended (phase p) -> resume p ev w = (phase p, w).
Proof. unfold resume. destruct (phase p); try done; by destruct ev. Qed.

(** With its only loop ended and the flag set, a system stays as it is
    until [start] is called. *)
Lemma run_at_rest evs : forall sys p,
  polls sys = [p] ->
  ended (phase p) ->
  stopPolling (self sys) = true ->
  Forall not_start evs ->
  run sys evs = sys.
Proof.
  induction evs as [|ev evs IH]; intros sys p Hpolls Hp Hflag Hevs; [done|].
  apply Forall_cons in Hevs as [Hev Hevs].
  unfold run in *. cbn [fold_left].
  assert (step sys ev = sys) as ->; [|by eapply IH].
  destruct sys as [w ps]. cbn [self polls] in *. subst ps.
  destruct ev as [|  |i r|i r|i]; cbn [step self polls]; [done| | | |].
  - by rewrite stop_stopped.
  - unfold resume_at. cbn [polls self].
    destruct i as [|i]; [|done]. cbn.
    rewrite resume_ended by done. by rewrite set_phase_id.
  - unfold resume_at. cbn [polls self].
    destruct i as [|i]; [|done]. cbn.
    rewrite resume_ended by done. by rewrite set_phase_id.
  - unfold resume_at. cbn [polls self].
    destruct i as [|i]; [|done]. cbn.
    rewrite resume_ended by done. by rewrite set_phase_id.
Qed.

Lemma for_of_stopPolling strategy items w :
  stopPolling (snd (for_of items (visit strategy) w)) = stopPolling w.
Proof.
  pose proof (for_of_evolves strategy items w) as H.
  by apply evolves_frame in H as (_ & _ & _ & ?).
Qed.

Lemma tick_events_reply_to i listing : Forall (reply_to i) (tick_events i listing).
Proof.
  destruct listing as [items|e]; cbn [tick_events].
  - constructor; [done|]. apply Forall_map. by apply Forall_true.
  - by constructor.
Qed.

(** The whole tick of loop [i], seen from the system. *)
Lemma run_tick i listing sys p :
  polls sys !! i = Some p ->
  phase p = Listing ->
  let result :=
    match listing with
    | Ok items => for_of items (visit (strategy p)) (self sys)
    | Thrown e => (Thrown e, self sys)
    end in
  run sys (tick_events i listing) =
    {| self := snd result;
       polls := <[i := set_phase (phase_after (fst result) (snd result)) p]>
                  (polls sys) |}.
Proof.
  intros Hi Hp. cbv zeta.
  rewrite (run_drive i _ sys p Hi (tick_events_reply_to i listing)).
  by rewrite (drive_tick i listing p (self sys) Hp).
Qed.

(** A tick that does not throw, on a watcher that is not stopped, leaves
    the loop sleeping; the timer then begins the next tick. *)
Lemma run_tick_again i items sys p :
  polls sys !! i = Some p ->
  phase p = Listing ->
  stopPolling (self sys) = false ->
  let result := for_of items (visit (strategy p)) (self sys) in
  fst result = Ok tt ->
  self (run sys (tick_events i (Ok items))) = snd result
  /\ phase_of i (run sys (tick_events i (Ok items))) = Some Sleeping
  /\ phase_of i (run sys (tick_events i (Ok items) ++ [Timer i]))
     = Some Listing.
Proof.
  intros Hi Hp Hflag result Hok.
  assert (i < length (polls sys)) as Hlt by by apply lookup_lt_Some in Hi.
  unfold run at 3. rewrite fold_left_app. fold (run sys (tick_events i (Ok items))).
  rewrite (run_tick i (Ok items) sys p Hi Hp). fold result.
  rewrite Hok. cbn [phase_after self polls fold_left step].
  assert (stopPolling (snd result) = false) as Hflag'.
  { unfold result. by rewrite for_of_stopPolling. }
  rewrite Hflag'. split; [done|].
  unfold phase_of, resume_at. cbn [polls self].
  rewrite list_lookup_insert_eq by done. split; [done|].
  unfold resume. cbn [set_phase phase inboxUrl]. rewrite Hflag'.
  cbn [call_fn polls]. by rewrite list_lookup_insert_eq by by rewrite length_insert.
Qed.

Lemma resume_halted p p' ev w :
  network_reply ev ->
  halted p p' ->
  snd (resume p' ev (stop w)) = stop (snd (resume p ev w))
  /\ halted (set_phase (fst (resume p ev w)) p)
            (set_phase (fst (resume p' ev (stop w))) p').
Proof.
  intros Hev Hpp'.
  assert (p' = set_phase (halt (phase p)) p
          \/ (p' = p /\ phase p = Sleeping)) as [-> | [-> Hp]].
  { destruct Hpp' as [-> | ->]; [|by left].
    assert (halt (phase p) = phase p \/ phase p = Sleeping) as [H|H]
      by (destruct (phase p); auto).
    - left. by rewrite H, set_phase_id.
    - by right. }
  - rewrite resume_stop by done. cbn [fst snd].
    split; [done|]. right. by rewrite set_phase_set_phase.
  - unfold resume. rewrite Hp. destruct ev; try done; cbn [fst snd];
      (split; [done|by left]).
Qed.

(** The run in which [stop()] was called follows the run in which it was
    not, as long as only the network replies. *)
Lemma run_halted evs : forall sys sys',
  Forall network_reply evs ->
  self sys' = stop (self sys) ->
  Forall2 halted (polls sys) (polls sys') ->
  self (run sys' evs) = stop (self (run sys evs))
  /\ Forall2 halted (polls (run sys evs)) (polls (run sys' evs)).
Proof.
  induction evs as [|ev evs IH]; intros sys sys' Hevs Hself Hpolls; [done|].
  apply Forall_cons in Hevs as [Hev Hevs].
  unfold run in *. cbn [fold_left]. apply IH; [done| |].
  - destruct ev as [| |i r|i r|]; try done; cbn [step]; unfold resume_at.
    all: destruct (polls sys !! i) as [p|] eqn:Hp.
    all: try (destruct (Forall2_lookup_l _ _ _ _ _ Hpolls Hp) as (p' & -> & Hpp');
              rewrite Hself;
              pose proof (resume_halted p p' _ (self sys) Hev Hpp') as [H1 _];
              destruct (resume p _ (self sys)), (resume p' _ (stop (self sys)));
              by cbn [self fst snd] in *).
    all: assert (polls sys' !! i = None) as ->; [|done].
    all: apply lookup_ge_None; rewrite <- (Forall2_length _ _ _ Hpolls);
         by apply lookup_ge_None.
  - destruct ev as [| |i r|i r|]; try done; cbn [step]; unfold resume_at.
    all: destruct (polls sys !! i) as [p|] eqn:Hp.
    all: try (destruct (Forall2_lookup_l _ _ _ _ _ Hpolls Hp) as (p' & -> & Hpp');
              rewrite Hself;
              pose proof (resume_halted p p' _ (self sys) Hev Hpp') as [_ H2];
              destruct (resume p _ (self sys)), (resume p' _ (stop (self sys)));
              cbn [polls fst snd] in *; by apply Forall2_insert).
    all: assert (polls sys' !! i = None) as ->; [|done].
    all: apply lookup_ge_None; rewrite <- (Forall2_length _ _ _ Hpolls);
         by apply lookup_ge_None.
Qed.

Lemma next_item_flag_set items w :
  stopPolling w = true ->
  stopPolling (snd (next_item items w)) = true
  /\ listed (log (snd (next_item items w))) = listed (log w)
  /\ fst (next_item items w) <> Sleeping.
Proof.
  intros Hflag. induction items as [|item items IH]; cbn [next_item].
  - unfold after_fn. by rewrite Hflag.
  - destruct (fetch w); [|done]. cbn [fst snd record stopPolling log].
    by rewrite listed_app, app_nil_r.
Qed.

Lemma receive_flag strategy item reply w :
  stopPolling (snd (receive strategy item reply w)) = stopPolling w
  /\ listed (log (snd (receive strategy item reply w))) = listed (log w).
Proof.
  rewrite receive_eq. destruct (parsed reply) as [n|e]; [|done].
  destruct (db w) as [store|]; [|done].
  destruct (seen store _), (heard w n) as [[]|e];
    cbn [snd delivered record set_db stopPolling log];
    by rewrite <- ?app_assoc, listed_app, app_nil_r.
Qed.

(** With the flag set, a resumed loop makes no listing request and does not
    go to sleep, and an ended loop stays as it is. *)
Lemma resume_flag_set p ev w :
  stopPolling w = true ->
  stopPolling (snd (resume p ev w)) = true
  /\ listed (log (snd (resume p ev w))) = listed (log w)
  /\ (fst (resume p ev w) = Sleeping -> phase p = Sleeping)
  /\ (ended (phase p) -> fst (resume p ev w) = phase p).
Proof.
  intros Hflag. unfold resume.
  destruct (phase p) as [|item rest| | |e] eqn:Hp.
  - destruct ev as [| |j [items|e]|j reply|]; try done.
    destruct (next_item_flag_set items w Hflag) as (? & ? & ?). done.
  - destruct ev as [| |j r|j reply|]; try done.
    destruct (receive_flag (strategy p) item reply w) as [Hf Hl].
    destruct (receive (strategy p) item reply w) as [[[]|e] w'];
      cbn [fst snd] in *; [|by rewrite Hf, Hl].
    rewrite Hflag in Hf.
    destruct (next_item_flag_set rest w' Hf) as (? & ? & ?).
    by rewrite <- Hl.
  - destruct ev; try done. by rewrite Hflag.
  - by destruct ev.
  - by destruct ev.
Qed.

Lemma resume_at_flag_set j ev sys :
  stopPolling (self sys) = true ->
  stopPolling (self (resume_at j ev sys)) = true
  /\ listed (log (self (resume_at j ev sys))) = listed (log (self sys))
  /\ length (polls (resume_at j ev sys)) = length (polls sys)
  /\ forall i,
       (phase_of i (resume_at j ev sys) = Some Sleeping ->
        phase_of i sys = Some Sleeping)
       /\ (forall ph, phase_of i sys = Some ph -> ended ph ->
                      phase_of i (resume_at j ev sys) = Some ph).
Proof.
  intros Hflag. unfold resume_at.
  destruct (polls sys !! j) as [p|] eqn:Hp; [|done].
  destruct (resume_flag_set p ev (self sys) Hflag) as (Hf & Hl & Hs & He).
  destruct (resume p ev (self sys)) as [ph w]. cbn [fst snd self polls] in *.
  split; [done|]. split; [done|]. split; [by rewrite length_insert|].
  intros i. unfold phase_of. cbn [polls].
  destruct (decide (i = j)) as [->|Hne].
  - rewrite list_lookup_insert_eq by by eapply lookup_lt_Some.
    rewrite Hp. cbn. split.
    + intros [= ->]. by rewrite Hs.
    + intros ph' [= <-] Hended. by rewrite He.
  - by rewrite list_lookup_insert_ne.
Qed.

(** With the flag set and until [start()] is called: the flag stays set, no
    listing request is made, no loop goes to sleep, an ended loop stays
    ended, and no loop is added. *)
Lemma run_flag_set evs : forall sys,
  stopPolling (self sys) = true ->
  Forall not_start evs ->
  stopPolling (self (run sys evs)) = true
  /\ listed (log (self (run sys evs))) = listed (log (self sys))
  /\ length (polls (run sys evs)) = length (polls sys)
  /\ forall i,
       (phase_of i (run sys evs) = Some Sleeping -> phase_of i sys = Some Sleeping)
       /\ (forall ph, phase_of i sys = Some ph -> ended ph ->
                      phase_of i (run sys evs) = Some ph).
Proof.
  induction evs as [|ev evs IH]; intros sys Hflag Hevs; [done|].
  apply Forall_cons in Hevs as [Hev Hevs].
  unfold run in *. cbn [fold_left].
  assert (stopPolling (self (step sys ev)) = true
          /\ listed (log (self (step sys ev))) = listed (log (self sys))
          /\ length (polls (step sys ev)) = length (polls sys)
          /\ forall i,
               (phase_of i (step sys ev) = Some Sleeping ->
                phase_of i sys = Some Sleeping)
               /\ (forall ph, phase_of i sys = Some ph -> ended ph ->
                              phase_of i (step sys ev) = Some ph))
    as (Hflag' & Hlisted & Hlen & Hphases).
  { destruct ev as [| |j r|j r|j]; [done| |by apply resume_at_flag_set..].
    cbn [step self polls stop set_stopPolling stopPolling log]. done. }
  destruct (IH (step sys ev) Hflag' Hevs) as (Hf & Hl & Hn & Hp).
  split; [done|]. split; [by rewrite Hl|]. split; [by rewrite Hn|].
  intros i. destruct (Hp i) as [Hs He]. destruct (Hphases i) as [Hs' He'].
  split; [by intros ?%Hs%Hs'|].
  intros ph Hph Hended. apply He; [|done]. by apply He'.
Qed.

(** C5. A call of [stop()] while loop [i] is inside a tick lets that tick run
    to its end: as the network replies, the watcher logs the same effects and
    keeps the same store as without the call. Where the loop would then have
    gone to sleep, it ends. From then on, and until [start()] is called, it
    stays ended and no tick begins: no listing request is made; when it is
    the only loop, nothing happens at all. A call of [start()] then clears
    the flag and begins a new loop with a tick, and this loop goes on
    ticking. *)
Theorem stop_during_tick sys i p evs evs' u s :
  polls sys !! i = Some p ->
  in_tick (phase p) ->
  Forall network_reply evs ->
  phase_of i (run sys evs) = Some Sleeping ->
  Forall not_start evs' ->
  let unstopped := run sys evs in
  let stopped := run (step sys CallStop) evs in
  let later := run stopped evs' in
  let restarted := step later (CallStart u s) in
  let p' := {| inboxUrl := u; strategy := default "activity" s; phase := Listing |} in
  let i' := length (polls later) in
  log (self stopped) = log (self unstopped)
  /\ db (self stopped) = db (self unstopped)
  /\ phase_of i stopped = Some Resolved
  /\ phase_of i later = Some Resolved
  /\ listed (log (self later)) = listed (log (self stopped))
  /\ (polls sys = [p] -> later = stopped)
  /\ stopPolling (self restarted) = false
  /\ log (self restarted) = log (self later) ++ [ListRequested u]
  /\ polls restarted = polls later ++ [p']
  /\ forall items,
       let result := for_of items (visit (strategy p')) (self restarted) in
       fst result = Ok tt ->
       self (run restarted (tick_events i' (Ok items))) = snd result
       /\ phase_of i' (run restarted (tick_events i' (Ok items)))
          = Some Sleeping
       /\ phase_of i' (run restarted (tick_events i' (Ok items) ++ [Timer i']))
          = Some Listing.
Proof.
  intros Hi Htick Hevs Hsleep Hevs'. cbv zeta.
  (* the tick, with and without the call *)
  destruct (run_halted evs sys (step sys CallStop) Hevs eq_refl) as [Hself Hpolls].
  { cbn [step polls]. apply Forall_Forall2_diag, Forall_true. by left. }
  destruct (run_flag_set evs (step sys CallStop) eq_refl) as (Hflag & _ & _ & Hnosleep).
  { eapply Forall_impl; [exact Hevs|]. by intros []. }
  assert (phase_of i (run (step sys CallStop) evs) = Some Resolved) as Hresolved.
  { unfold phase_of in *.
    destruct (polls (run sys evs) !! i) as [q|] eqn:Hq; [|done].
    injection Hsleep as Hsleep.
    destruct (Forall2_lookup_l _ _ _ _ _ Hpolls Hq) as (q' & Hq' & [-> | ->]).
    - (* the loop cannot be sleeping in the stopped run *)
      destruct (Hnosleep i) as [Hs _]. unfold phase_of in Hs.
      rewrite Hq' in Hs. cbn in Hs. rewrite Hsleep in Hs.
      specialize (Hs eq_refl). cbn [step polls] in Hs. rewrite Hi in Hs.
      injection Hs as Hs. rewrite Hs in Htick. done.
    - rewrite Hq'. cbn. by rewrite Hsleep. }
  split; [by rewrite Hself|]. split; [by rewrite Hself|]. split; [done|].
  (* until start is called *)
  destruct (run_flag_set evs' (run (step sys CallStop) evs) Hflag Hevs')
    as (Hflag' & Hlisted & _ & Hlater).
  split; [by apply (Hlater i)|]. split; [done|].
  split.
  { intros Hone. unfold phase_of in Hresolved.
    assert (length (polls (run (step sys CallStop) evs)) = 1) as Hlen.
    { destruct (run_flag_set evs (step sys CallStop) eq_refl) as (_ & _ & -> & _).
      - eapply Forall_impl; [exact Hevs|]. by intros [].
      - cbn [step polls]. by rewrite Hone. }
    destruct (polls (run (step sys CallStop) evs)) as [|q [|]] eqn:Hq; try done.
    assert (i = 0) as -> by (rewrite Hone in Hi; by destruct i).
    cbn in Hresolved. injection Hresolved as Hresolved.
    eapply run_at_rest; [exact Hq|by rewrite Hresolved|done|done]. }
  (* start *)
  cbn [step start call_fn self polls].
  split; [done|]. split; [done|]. split; [done|].
  intros items Hok. apply run_tick_again; [|done|done|done].
  cbn [polls]. by apply list_lookup_middle.
Qed.

(** ** Order within a tick *)






(** *** One visit, case by case *)

Lemma visit_unseen strategy item reply w store n :
  is_Some (fetch w) -> db w = Some store -> parsed reply = Ok n ->
  seen store (idToCheck strategy item n) = false ->
  visit strategy (item, reply) w =
    match heard w n with
    | Ok _ =>
        (Ok tt, delivered n (idToCheck strategy item n) store
                  (looked_up item (idToCheck strategy item n) w))
    | Thrown e =>
        (Thrown e,
         record (Emitted n) (looked_up item (idToCheck strategy item n) w))
    end.
Proof.
  intros [f Hf] Hdb Hp Hs. rewrite visit_eq, Hf, receive_eq, Hp.
  cbn [record db]. rewrite Hdb, Hs. by rewrite heard_record.
Qed.

Lemma visit_delivers strategy item reply w store n :
  is_Some (fetch w) -> db w = Some store -> parsed reply = Ok n ->
  seen store (idToCheck strategy item n) = false ->
  heard w n = Ok tt ->
  visit strategy (item, reply) w =
    (Ok tt, delivered n (idToCheck strategy item n) store
              (looked_up item (idToCheck strategy item n) w)).
Proof.
  intros Hf Hdb Hp Hs Hh.
  by rewrite (visit_unseen strategy item reply w store n), Hh.
Qed.

Lemma visit_skips strategy item reply w store n :
  is_Some (fetch w) -> db w = Some store -> parsed reply = Ok n ->
  seen store (idToCheck strategy item n) = true ->
  visit strategy (item, reply) w =
    (Ok tt, looked_up item (idToCheck strategy item n) w).
Proof.
  intros [f Hf] Hdb Hp Hs. rewrite visit_eq, Hf, receive_eq, Hp.
  cbn [record db]. by rewrite Hdb, Hs.
Qed.

Lemma visit_throws strategy item reply w e :
  is_Some (fetch w) -> parsed reply = Thrown e ->
  visit strategy (item, reply) w =
    (Thrown e, record (FetchRequested (ResourceInfo.url item)) w).
Proof. intros [f Hf] Hp. by rewrite visit_eq, Hf, receive_eq, Hp. Qed.

(** ** Claims about the deduplication key *)

(** C2 (amended). The key is the url of the inbox resource exactly when the
    strategy is "notification_id"; for "activity" and for every other
    strategy string it is the derived id of the notification. With the
    Identity Store present and none of the keys seen, a tick that lists two
    resources with distinct urls whose notifications have the same derived
    id, and in which the listeners return from the first event, emits both
    under "notification_id" (the tick then ends as the listeners of the
    second event do), and only the first under any other strategy. *)
Theorem strategy_selects_key :
  (forall item n,
      idToCheck "notification_id" item n = Some (ResourceInfo.url item))
  /\ (forall item n, idToCheck "activity" item n = id n)
  /\ (forall strategy item n,
        strategy <> "notification_id" -> idToCheck strategy item n = id n)
  /\ forall inboxUrl w store i1 i2 r1 r2 n1 n2,
       is_Some (fetch w) -> db w = Some store ->
       parsed r1 = Ok n1 -> parsed r2 = Ok n2 ->
       id n1 = id n2 ->
       ResourceInfo.url i1 <> ResourceInfo.url i2 ->
       seen store (Some (ResourceInfo.url i1)) = false ->
       seen store (Some (ResourceInfo.url i2)) = false ->
       seen store (id n1) = false ->
       heard w n1 = Ok tt ->
       let after strategy :=
         tick inboxUrl strategy (Ok [(i1, r1); (i2, r2)]) w in
       emitted (log (snd (after "notification_id")))
       = emitted (log w) ++ [n1; n2]
       /\ fst (after "notification_id")
          = listeners w (emitted (log w) ++ [n1]) n2
       /\ forall strategy, strategy <> "notification_id" ->
            fst (after strategy) = Ok tt
            /\ emitted (log (snd (after strategy))) = emitted (log w) ++ [n1].
Proof.
  assert (forall strategy item n,
             strategy <> "notification_id" -> idToCheck strategy item n = id n)
    as Hother.
  { intros strategy item n Hne. unfold idToCheck.
    by destruct (String.eqb_spec strategy "notification_id"). }
  split; [done|]. split; [done|]. split; [exact Hother|].
  intros inboxUrl w store i1 i2 r1 r2 n1 n2 Hf Hdb Hp1 Hp2 Hid Hurl Hs1 Hs2 Hsid Hh.
  cbv beta zeta.
  assert (heard (record (ListRequested inboxUrl) w) n1 = Ok tt) as Hh'
    by by rewrite heard_record.
  assert (forall k item,
    heard (delivered n1 k store
             (looked_up item k (record (ListRequested inboxUrl) w))) n2
    = listeners w (emitted (log w) ++ [n1]) n2) as Hh2.
  { intros k item. unfold heard.
    cbn [delivered looked_up record set_db listeners log].
    rewrite !emitted_app. cbn [emitted]. by rewrite !app_nil_r. }
  split; [|split].
  - rewrite tick_eq, for_of_cons.
    erewrite visit_delivers; [|done|done|done|done|done].
    rewrite for_of_cons.
    erewrite visit_unseen; [|done|done|done|].
    + rewrite Hh2.
      destruct (listeners w _ n2) as [[]|e];
        cbn [for_of ret snd delivered looked_up record set_db log];
        by rewrite <- ?app_assoc, !emitted_app.
    + cbn [idToCheck String.eqb Ascii.eqb Bool.eqb].
      rewrite seen_put, Hs2. by rewrite bool_decide_eq_false_2 by congruence.
  - rewrite tick_eq, for_of_cons.
    erewrite visit_delivers; [|done|done|done|done|done].
    rewrite for_of_cons.
    erewrite visit_unseen; [|done|done|done|].
    + rewrite Hh2. by destruct (listeners w _ n2) as [[]|e].
    + cbn [idToCheck String.eqb Ascii.eqb Bool.eqb].
      rewrite seen_put, Hs2. by rewrite bool_decide_eq_false_2 by congruence.
  - intros strategy Hne. rewrite !tick_eq.
    rewrite for_of_cons.
    erewrite visit_delivers; [|done|done|done|by rewrite Hother|done].
    rewrite for_of_cons.
    erewrite visit_skips; [|done|done|done|].
    + cbn [for_of ret fst snd]. split; [done|].
      cbn [delivered looked_up record set_db log].
      by rewrite <- ?app_assoc, !emitted_app.
    + rewrite !Hother by done. rewrite seen_put, Hid.
      by rewrite bool_decide_eq_true_2.
Qed.


(** ** Claims about failures *)

Lemma for_of_app strategy items items' w :
  for_of (items ++ items') (visit strategy) w =
    match for_of items (visit strategy) w with
    | (Ok _, w') => for_of items' (visit strategy) w'
    | (Thrown e, w') => (Thrown e, w')
    end.
Proof.
  revert w. induction items as [|x items IH]; intros w; [done|].
  cbn [app]. rewrite !for_of_cons.
  destruct (visit strategy x w) as [[[]|e] w1]; [apply IH|done].
Qed.

(** C4 (amended). A failure while processing one item (its request or its
    parsing throws) ends the tick at that item and ends the polling loop:
    the effects of the items listed before it stay, the request for the
    failing item is the last effect of the tick, the items listed after it
    are not processed, and the loop is rejected and never resumed by a
    reply or the timer. *)
Theorem item_failure_ends_polling sys i p before item reply after e :
  polls sys !! i = Some p ->
  phase p = Listing ->
  is_Some (fetch (self sys)) ->
  fst (for_of before (visit (strategy p)) (self sys)) = Ok tt ->
  parsed reply = Thrown e ->
  let listing := Ok (before ++ (item, reply) :: after) in
  let sys' := run sys (tick_events i listing) in
  self sys' =
    record (FetchRequested (ResourceInfo.url item))
      (snd (for_of before (visit (strategy p)) (self sys)))
  /\ phase_of i sys' = Some (Rejected e)
  /\ forall evs, Forall (reply_to i) evs -> run sys' evs = sys'.
Proof.
  intros Hi Hp Hf Hok Hfail. cbv zeta.
  rewrite (run_tick i _ sys p Hi Hp).
  rewrite for_of_app.
  pose proof (for_of_evolves (strategy p) before (self sys)) as Hev.
  apply evolves_frame in Hev as (_ & Hf' & _).
  destruct (for_of before _ (self sys)) as [[[]|e'] w1]; [|done].
  cbn [fst snd] in *.
  rewrite for_of_cons, (visit_throws (strategy p) item reply w1 e)
    by (by rewrite ?Hf').
  cbn [fst snd phase_after].
  assert (i < length (polls sys)) as Hlt by by apply lookup_lt_Some in Hi.
  split; [done|].
  split; [unfold phase_of; cbn [polls]; by rewrite list_lookup_insert_eq|].
  intros evs Hevs.
  rewrite (run_drive i evs _ (set_phase (Rejected e) p));
    [|cbn [polls]; by rewrite list_lookup_insert_eq|done].
  cbn [self polls]. rewrite drive_ended by done. cbn [fst snd].
  by rewrite list_insert_insert_eq.
Qed.

(** ** Claims about a watcher without a store *)

Lemma next_item_quiet items w :
  db (snd (next_item items w)) = db w
  /\ emitted (log (snd (next_item items w))) = emitted (log w).
Proof.
  induction items as [|item items IH]; cbn [next_item]; [done|].
  destruct (fetch w); [|done]. cbn [snd record db log].
  by rewrite emitted_app, app_nil_r.
Qed.

Lemma resume_no_db p ev w :
  db w = None ->
  db (snd (resume p ev w)) = None
  /\ emitted (log (snd (resume p ev w))) = emitted (log w).
Proof.
  intros Hdb. unfold resume.
  destruct (phase p) as [|item rest| | |e].
  - destruct ev as [| |j [items|e]|j reply|]; try done.
    destruct (next_item_quiet items w) as [-> ->]. done.
  - destruct ev as [| |j r|j reply|]; try done.
    rewrite receive_eq, Hdb.
    destruct (parsed reply) as [n|e]; [|done].
    destruct (next_item_quiet rest w) as [-> ->]. done.
  - destruct ev; try done.
    destruct (stopPolling w); [done|].
    cbn [call_fn snd record db log]. by rewrite emitted_app, app_nil_r.
  - by destruct ev.
  - by destruct ev.
Qed.

Lemma step_no_db sys ev :
  db (self sys) = None ->
  db (self (step sys ev)) = None
  /\ emitted (log (self (step sys ev))) = emitted (log (self sys)).
Proof.
  intros Hdb.
  assert (forall i, db (self (resume_at i ev sys)) = None
                    /\ emitted (log (self (resume_at i ev sys)))
                       = emitted (log (self sys))) as Hresume.
  { intros i. unfold resume_at. destruct (polls sys !! i) as [p|]; [|done].
    pose proof (resume_no_db p ev (self sys) Hdb) as H.
    by destruct (resume p ev (self sys)). }
  destruct ev as [u s| |i r|i r|i]; cbn [step]; try apply Hresume.
  - cbn [start call_fn self record set_stopPolling db log].
    by rewrite emitted_app, app_nil_r.
  - done.
Qed.

Lemma run_no_db evs : forall sys,
  db (self sys) = None ->
  db (self (run sys evs)) = None
  /\ emitted (log (self (run sys evs))) = emitted (log (self sys)).
Proof.
  induction evs as [|ev evs IH]; intros sys Hdb; [done|].
  unfold run in *. cbn [fold_left].
  destruct (step_no_db sys ev Hdb) as [Hdb' <-]. by apply IH.
Qed.

(** ** Any number of loops, any order of events *)

Lemma reaches_trans w1 w2 w3 : reaches w1 w2 -> reaches w2 w3 -> reaches w1 w3.
Proof.
  induction 1; intros H3; [done| | | |].
  - eapply reaches_request; eauto.
  - eapply reaches_flag; eauto.
  - eapply reaches_deliver; eauto.
  - eapply reaches_unheard; eauto.
Qed.

Lemma reaches_record e w :
  emitted [e] = [] -> marked [e] = [] -> reaches w (record e w).
Proof. intros. eapply reaches_request; [done|done|apply reaches_refl]. Qed.

Lemma next_item_reaches items w : reaches w (snd (next_item items w)).
Proof.
  induction items as [|item items IH]; cbn [next_item]; [apply reaches_refl|].
  destruct (fetch w); [|done]. cbn [snd]. by apply reaches_record.
Qed.

Lemma receive_reaches strategy item reply w :
  reaches w (snd (receive strategy item reply w)).
Proof.
  rewrite receive_eq. destruct (parsed reply) as [n|e]; [|apply reaches_refl].
  destruct (db w) as [store|] eqn:Hdb; [|apply reaches_refl].
  eapply (reaches_request (Queried _)); [done|done|].
  destruct (seen store _) eqn:Hs; [apply reaches_refl|].
  destruct (heard w n) as [[]|e] eqn:Hh; cbn [snd].
  - eapply reaches_deliver; [done|done|apply reaches_refl].
  - eapply reaches_unheard; [|apply reaches_refl]. by rewrite heard_record.
Qed.

Lemma resume_reaches p ev w : reaches w (snd (resume p ev w)).
Proof.
  unfold resume. destruct (phase p) as [|item rest| | |e].
  - destruct ev as [| |j [items|e]|j reply|]; try apply reaches_refl.
    apply next_item_reaches.
  - destruct ev as [| |j r|j reply|]; try apply reaches_refl.
    pose proof (receive_reaches (strategy p) item reply w) as H.
    destruct (receive (strategy p) item reply w) as [[[]|e] w']; cbn [snd] in *;
      [|done].
    eapply reaches_trans; [exact H|apply next_item_reaches].
  - destruct ev; try apply reaches_refl.
    destruct (stopPolling w); [apply reaches_refl|].
    cbn [call_fn snd]. by apply reaches_record.
  - destruct ev; apply reaches_refl.
  - destruct ev; apply reaches_refl.
Qed.

Lemma step_reaches sys ev : reaches (self sys) (self (step sys ev)).
Proof.
  assert (forall i, reaches (self sys) (self (resume_at i ev sys))) as Hresume.
  { intros i. unfold resume_at. destruct (polls sys !! i) as [p|]; [|apply reaches_refl].
    pose proof (resume_reaches p ev (self sys)) as H.
    by destruct (resume p ev (self sys)). }
  destruct ev as [u s| |i r|i r|i]; cbn [step]; try apply Hresume.
  - cbn [start call_fn self]. eapply reaches_flag. by apply reaches_record.
  - cbn [self]. eapply reaches_flag. apply reaches_refl.
Qed.

Lemma run_reaches evs : forall sys, reaches (self sys) (self (run sys evs)).
Proof.
  induction evs as [|ev evs IH]; intros sys; [apply reaches_refl|].
  unfold run in *. cbn [fold_left].
  eapply reaches_trans; [apply step_reaches|apply IH].
Qed.

Lemma reaches_frame w w' :
  reaches w w' ->
  webId w' = webId w /\ fetch w' = fetch w /\ freq w' = freq w
  /\ (is_Some (db w') <-> is_Some (db w))
  /\ exists new, log w' = log w ++ new.
Proof.
  induction 1 as [w|e w w' _ _ _ IH|b w w' _ IH|n k store w w' Hdb _ _ IH
                 |n e w w' _ _ IH].
  - do 3 (split; [done|]). split; [done|]. exists []. by rewrite app_nil_r.
  - destruct IH as (-> & -> & -> & Hd & new & ->).
    do 3 (split; [done|]). split; [done|]. exists (e :: new).
    cbn [record log]. by rewrite <- app_assoc.
  - exact IH.
  - destruct IH as (-> & -> & -> & Hd & new & ->).
    do 3 (split; [done|]).
    split; [rewrite Hd, Hdb; cbn; by split; eauto|].
    exists (Emitted n :: Stored k :: new).
    cbn [delivered record set_db log]. by rewrite <- !app_assoc.
  - destruct IH as (-> & -> & -> & Hd & new & ->).
    do 3 (split; [done|]). split; [done|]. exists (Emitted n :: new).
    cbn [record log]. by rewrite <- app_assoc.
Qed.

(** What any run does to the store and to the log: every marking comes right
    after an event; the keys marked are pairwise distinct and were not seen
    before; the store afterwards holds what it held before and the keys
    marked; and when no listener throws, every event is directly followed by
    the marking of its key. *)
Lemma reaches_dedup w w' :
  reaches w w' ->
  forall store, db w = Some store ->
  exists store' new,
    db w' = Some store'
    /\ log w' = log w ++ new
    /\ marked new = map snd (deliveries new)
    /\ NoDup (marked new)
    /\ (forall k, k ∈ marked new -> seen store k = false)
    /\ (forall k, seen store' k = true <-> seen store k = true \/ k ∈ marked new)
    /\ (never_throws w -> emitted new = map fst (deliveries new))
    /\ marked (take 1 new) = [].
Proof.
  induction 1 as [w|e w w' He0 Hm0 _ IH|b w w' _ IH|n k st w w' Hdb Hs _ IH
                 |n e w w' Hh _ IH];
    intros store Hstore.
  - exists store, []. rewrite app_nil_r. cbn [emitted marked deliveries map].
    do 3 (split; [done|]). split; [apply NoDup_nil_2|].
    split; [by intros k ?%elem_of_nil|].
    split; [|done].
    intros k. split; [by left|]. by intros [?|?%elem_of_nil].
  - destruct (IH store Hstore)
      as (store' & new & Hdb' & Hlog & Hm & Hnd & Hun & Hst & He & Hq).
    exists store', (e :: new).
    cbn [record log] in Hlog. rewrite Hlog, <- app_assoc.
    assert (emitted (e :: new) = emitted new /\ marked (e :: new) = marked new
            /\ deliveries (e :: new) = deliveries new) as (-> & -> & ->).
    { by destruct e. }
    done.
  - by apply IH.
  - assert (st = store) as -> by congruence.
    destruct (IH (store_put k true store) eq_refl)
      as (store' & new & Hdb' & Hlog & Hm & Hnd & Hun & Hst & He & Hq).
    exists store', (Emitted n :: Stored k :: new).
    split; [done|].
    split; [cbn [delivered record log set_db] in Hlog;
            rewrite Hlog; by rewrite <- !app_assoc|].
    cbn [emitted marked deliveries map fst snd].
    split; [by rewrite Hm|].
    assert (k ∉ marked new) as Hfresh.
    { intros Hin. apply Hun in Hin. rewrite seen_put in Hin.
      by rewrite bool_decide_eq_true_2 in Hin. }
    split; [by apply NoDup_cons|].
    split.
    { intros k' [->|Hin]%elem_of_cons; [done|].
      apply Hun in Hin. rewrite seen_put in Hin.
      by apply orb_false_iff in Hin as [_ ?]. }
    split.
    { intros k'. rewrite Hst, seen_put, orb_true_iff, bool_decide_eq_true, elem_of_cons.
      intuition congruence. }
    split; [|done]. intros Hn. by rewrite (He Hn).
  - destruct (IH store Hstore)
      as (store' & new & Hdb' & Hlog & Hm & Hnd & Hun & Hst & He & Hq).
    exists store', (Emitted n :: new).
    cbn [record log] in Hlog. rewrite Hlog, <- app_assoc.
    assert (deliveries (Emitted n :: new) = deliveries new) as ->.
    { by destruct new as [|[] new]. }
    cbn [marked]. do 6 (split; [done|]). split; [|done].
    intros Hn. unfold heard in Hh. by rewrite Hn in Hh.
Qed.

(** C10. Under the "activity" strategy with the Identity Store present,
    every notification without a derived id has the same key, undefined.
    The first such notification is emitted, and when its listeners return
    the key is marked; from then on, whatever is called on the watcher and
    whatever its loops do in between, an item whose notification has no
    derived id is skipped after the lookup of the key, without an event, a
    marking or an exception, whichever resource it comes from. *)
Theorem undefined_id_shared_key w store item reply n :
  is_Some (fetch w) -> db w = Some store ->
  parsed reply = Ok n -> id n = None ->
  seen store None = false ->
  heard w n = Ok tt ->
  let w1 := snd (visit "activity" (item, reply) w) in
  (forall item' n', id n' = None -> idToCheck "activity" item' n' = None)
  /\ log w1 = log w ++ [FetchRequested (ResourceInfo.url item);
                        Queried None; Emitted n; Stored None]
  /\ forall sys evs item' reply' n',
       self sys = w1 ->
       parsed reply' = Ok n' -> id n' = None ->
       let w2 := self (run sys evs) in
       visit "activity" (item', reply') w2 = (Ok tt, looked_up item' None w2).
Proof.
  intros Hf Hdb Hp Hid Hs Hh. cbv zeta.
  split; [by intros item' n' Hn'|].
  assert (idToCheck "activity" item n = None) as Hk by done.
  rewrite (visit_delivers "activity" item reply w store n Hf Hdb Hp)
    by by rewrite ?Hk.
  rewrite Hk. cbn [snd].
  split; [cbn [delivered looked_up record set_db log]; by rewrite <- !app_assoc|].
  intros sys evs item' reply' n' Hself Hp' Hid'.
  pose proof (run_reaches evs sys) as Hev. rewrite Hself in Hev.
  destruct (reaches_dedup _ _ Hev (store_put None true store) eq_refl)
    as (store2 & new & Hdb2 & _ & _ & _ & _ & Hst & _).
  apply reaches_frame in Hev as (_ & Hf2 & _).
  assert (idToCheck "activity" item' n' = None) as Hk' by done.
  rewrite <- Hk'.
  eapply visit_skips; [by rewrite Hf2|exact Hdb2|exact Hp'|].
  rewrite Hk'. apply Hst. left. rewrite seen_put. by rewrite bool_decide_eq_true_2.
Qed.

(** X1. Whatever is called on a watcher and whatever the network and the
    timers do, with any number of loops and strategies: the session (fetch
    and web id) and the period are never written, a store is never opened or
    closed, and the log only grows. *)
Theorem run_keeps_session sys evs :
  webId (self (run sys evs)) = webId (self sys)
  /\ fetch (self (run sys evs)) = fetch (self sys)
  /\ freq (self (run sys evs)) = freq (self sys)
  /\ (is_Some (db (self (run sys evs))) <-> is_Some (db (self sys)))
  /\ log (self sys) `prefix_of` log (self (run sys evs)).
Proof.
  destruct (reaches_frame _ _ (run_reaches evs sys)) as (Hw & Hf & Hq & Hd & new & Hlog).
  do 4 (split; [done|]). by exists new.
Qed.

(** X2. With the Identity Store present, whatever the order of events and
    however many loops run on the watcher: a key is marked only right after
    an event, the keys marked are pairwise distinct and were not seen before,
    and every key seen before is still seen afterwards. When no listener
    throws, every event emitted is directly followed by the marking of its
    key, so that no key gets a second event. *)
Theorem run_dedup sys evs store :
  db (self sys) = Some store ->
  exists store' new,
    db (self (run sys evs)) = Some store'
    /\ log (self (run sys evs)) = log (self sys) ++ new
    /\ marked new = map snd (deliveries new)
    /\ NoDup (marked new)
    /\ (forall k, k ∈ marked new ->
           store_get store k <> Some true /\ store_get store' k = Some true)
    /\ (forall k, store_get store k = Some true -> store_get store' k = Some true)
    /\ (never_throws (self sys) -> emitted new = map fst (deliveries new)).
Proof.
  intros Hdb.
  destruct (reaches_dedup _ _ (run_reaches evs sys) store Hdb)
    as (store' & new & Hdb' & Hlog & Hm & Hnd & Hun & Hst & He & _).
  exists store', new. do 4 (split; [done|]). split; [|split; [|done]].
  - intros k Hin. split.
    + rewrite <- seen_true_iff. by rewrite (Hun k Hin).
    + apply seen_true_iff, Hst. by right.
  - intros k Hk. apply seen_true_iff, Hst. left. by apply seen_true_iff.
Qed.

Lemma next_item_stopPolling items w :
  stopPolling (snd (next_item items w)) = stopPolling w.
Proof.
  induction items as [|item items IH]; cbn [next_item]; [done|].
  by destruct (fetch w).
Qed.

Lemma resume_stopPolling p ev w :
  stopPolling (snd (resume p ev w)) = stopPolling w.
Proof.
  unfold resume. destruct (phase p) as [|item rest| | |e].
  - destruct ev as [| |j [items|e]|j reply|]; try done.
    apply next_item_stopPolling.
  - destruct ev as [| |j r|j reply|]; try done.
    destruct (receive_flag (strategy p) item reply w) as [Hf _].
    destruct (receive (strategy p) item reply w) as [[[]|e] w'];
      cbn [snd] in *; [|done].
    by rewrite next_item_stopPolling.
  - destruct ev; try done. by destruct (stopPolling w) eqn:Hf.
  - by destruct ev.
  - by destruct ev.
Qed.

(** X19. The flag is written by [start()] and [stop()] only: after any
    events it is set exactly when the last of these two calls was [stop()],
    and it is as before when neither was called. No tick, reply or timer
    writes it. *)
Theorem flag_follows_last_call sys evs :
  stopPolling (self (run sys evs)) = flag_after evs (stopPolling (self sys)).
Proof.
  revert sys. induction evs as [|ev evs IH]; intros sys; [done|].
  unfold run in *. cbn [fold_left]. rewrite IH.
  assert (forall i, stopPolling (self (resume_at i ev sys))
                    = stopPolling (self sys)) as Hresume.
  { intros i. unfold resume_at. destruct (polls sys !! i) as [p|]; [|done].
    pose proof (resume_stopPolling p ev (self sys)) as H.
    by destruct (resume p ev (self sys)). }
  destruct ev as [u s| |i r|i r|i]; cbn [flag_after step]; by rewrite ?Hresume.
Qed.

Lemma step_polls sys ev :
  length (polls (step sys ev)) = length (polls sys) + starts [ev]
  /\ forall i p, polls sys !! i = Some p ->
       exists ph, polls (step sys ev) !! i = Some (set_phase ph p)
                  /\ (ended (phase p) -> ph = phase p).
Proof.
  assert (forall j,
    length (polls (resume_at j ev sys)) = length (polls sys) + 0
    /\ forall i p, polls sys !! i = Some p ->
         exists ph, polls (resume_at j ev sys) !! i = Some (set_phase ph p)
                    /\ (ended (phase p) -> ph = phase p)) as Hresume.
  { intros j. unfold resume_at.
    destruct (polls sys !! j) as [q|] eqn:Hq.
    - pose proof (resume_ended q ev (self sys)) as He.
      destruct (resume q ev (self sys)) as [ph w]. cbn [polls].
      split; [rewrite length_insert; lia|].
      intros i p Hp. destruct (decide (i = j)) as [->|Hne].
      + assert (q = p) as -> by congruence.
        exists ph. rewrite list_lookup_insert_eq by by eapply lookup_lt_Some.
        split; [done|]. intros Hended. by injection (He Hended).
      + exists (phase p). rewrite list_lookup_insert_ne by done.
        by rewrite set_phase_id.
    - split; [lia|]. intros i p Hp. exists (phase p). by rewrite set_phase_id. }
  destruct ev as [u s| |j r|j r|j]; cbn [step starts]; try apply Hresume.
  - cbn [start call_fn polls]. split; [rewrite length_app; cbn; lia|].
    intros i p Hp. exists (phase p). rewrite set_phase_id.
    split; [|done]. rewrite lookup_app_l; [done|by eapply lookup_lt_Some].
  - cbn [polls]. split; [lia|]. intros i p Hp. exists (phase p).
    by rewrite set_phase_id.
Qed.

(** A loop that has ended is never resumed. *)
Lemma run_ended evs : forall sys i ph,
  phase_of i sys = Some ph -> ended ph ->
  phase_of i (run sys evs) = Some ph.
Proof.
  induction evs as [|ev evs IH]; intros sys i ph Hph Hended; [done|].
  unfold run in *. cbn [fold_left]. apply IH; [|done].
  unfold phase_of in *.
  destruct (polls sys !! i) as [p|] eqn:Hp; [|done].
  injection Hph as <-.
  destruct (step_polls sys ev) as [_ Hstep].
  destruct (Hstep i p Hp) as (ph & -> & Hend). cbn. by rewrite Hend.
Qed.

(** X3. Loops are only ever added, one per call of [start()]; a loop keeps
    the inbox url and the strategy it was started with; and a loop that has
    ended, resolved or rejected, stays ended whatever happens afterwards, a
    later [start()] included. *)
Theorem loops_are_never_revived sys evs :
  length (polls (run sys evs)) = length (polls sys) + starts evs
  /\ forall i p, polls sys !! i = Some p ->
       exists ph, polls (run sys evs) !! i = Some (set_phase ph p)
                  /\ (ended (phase p) -> ph = phase p).
Proof.
  revert sys. induction evs as [|ev evs IH]; intros sys.
  - cbn. split; [lia|]. intros i p Hp. exists (phase p). by rewrite set_phase_id.
  - unfold run in *. cbn [fold_left].
    destruct (step_polls sys ev) as [Hlen Hstep].
    destruct (IH (step sys ev)) as [Hlen' Hrun].
    split.
    + rewrite Hlen', Hlen. cbn [starts]. destruct ev; cbn; lia.
    + intros i p Hp.
      destruct (Hstep i p Hp) as (ph & Hph & Hend).
      destruct (Hrun i _ Hph) as (ph' & Hph' & Hend').
      exists ph'. rewrite set_phase_set_phase in Hph'. split; [done|].
      intros Hended. rewrite <- (Hend Hended). apply Hend'.
      cbn [set_phase phase]. by rewrite (Hend Hended).
Qed.

(** X4. [stop()] called while a loop sleeps: from then on, and until
    [start()] is called, no listing request is made; when the timer of the
    loop fires, the loop ends without calling the callback. *)
Theorem stop_while_sleeping sys i p evs :
  polls sys !! i = Some p ->
  phase p = Sleeping ->
  Forall not_start evs ->
  listed (log (self (run (step sys CallStop) evs))) = listed (log (self sys))
  /\ self (run sys [CallStop; Timer i]) = stop (self sys)
  /\ phase_of i (run sys [CallStop; Timer i]) = Some Resolved.
Proof.
  intros Hi Hp Hevs.
  destruct (run_flag_set evs (step sys CallStop) eq_refl Hevs) as (_ & Hl & _).
  split; [exact Hl|].
  cbn [run fold_left step]. unfold resume_at. cbn [polls self]. rewrite Hi.
  unfold resume. rewrite Hp. cbn [stop set_stopPolling stopPolling].
  split; [done|]. unfold phase_of. cbn [polls].
  by rewrite list_lookup_insert_eq by by eapply lookup_lt_Some.
Qed.

(** X5. [stop()] directly followed by [start()] is the same as [start()]
    alone: the flag is cleared before any loop has looked at it. A loop that
    was sleeping therefore goes on: when its timer fires it calls the
    callback again, beside the loop just started. *)
Theorem stop_then_start_keeps_loop sys i p u s :
  polls sys !! i = Some p ->
  phase p = Sleeping ->
  (forall evs, run sys (CallStop :: CallStart u s :: evs)
               = run sys (CallStart u s :: evs))
  /\ let sys' := run sys [CallStop; CallStart u s; Timer i] in
     phase_of i sys' = Some Listing
     /\ phase_of (length (polls sys)) sys' = Some Listing
     /\ listed (log (self sys')) = listed (log (self sys)) ++ [u; inboxUrl p].
Proof.
  intros Hi Hp. split; [done|]. cbv zeta.
  assert (i < length (polls sys)) as Hlt by by eapply lookup_lt_Some.
  cbn [run fold_left step start call_fn self polls].
  unfold resume_at. cbn [polls self].
  rewrite lookup_app_l, Hi by done.
  unfold resume. rewrite Hp. cbn [record set_stopPolling stop stopPolling call_fn].
  unfold phase_of. cbn [polls self log].
  split; [by rewrite list_lookup_insert_eq by (rewrite length_app; lia)|].
  split.
  - rewrite list_lookup_insert_ne by lia. by rewrite list_lookup_middle.
  - cbn [record log set_stopPolling stop]. rewrite !listed_app. cbn.
    by rewrite <- app_assoc.
Qed.

(** X6. A tick whose listing throws rejects the loop for good and leaves the
    watcher as it was: no request for an item is made and nothing is emitted
    or marked. *)
Theorem listing_failure_ends_polling sys i p e evs :
  polls sys !! i = Some p ->
  phase p = Listing ->
  let sys' := step sys (Listed i (Thrown e)) in
  self sys' = self sys
  /\ phase_of i sys' = Some (Rejected e)
  /\ phase_of i (run sys' evs) = Some (Rejected e).
Proof.
  intros Hi Hp. cbv zeta.
  assert (step sys (Listed i (Thrown e))
          = {| self := self sys;
               polls := <[i := set_phase (Rejected e) p]> (polls sys) |}) as ->.
  { cbn [step]. unfold resume_at, resume. by rewrite Hi, Hp. }
  assert (<[i := set_phase (Rejected e) p]> (polls sys) !! i
          = Some (set_phase (Rejected e) p)) as Hi'.
  { apply list_lookup_insert_eq. by eapply lookup_lt_Some. }
  split; [done|]. split; [unfold phase_of; cbn [polls]; by rewrite Hi'|].
  apply run_ended; [|done]. unfold phase_of. cbn [polls]. by rewrite Hi'.
Qed.

(** X7. A tick makes no request for an item when the listing is empty or
    when the watcher has no fetch function: the watcher is left as it was,
    and the loop goes to sleep, or ends if the flag is set. *)
Theorem tick_without_requests sys i p items :
  polls sys !! i = Some p ->
  phase p = Listing ->
  items = [] \/ fetch (self sys) = None ->
  let sys' := step sys (Listed i (Ok items)) in
  self sys' = self sys
  /\ phase_of i sys'
     = Some (if stopPolling (self sys) then Resolved else Sleeping).
Proof.
  intros Hi Hp Hnone. cbv zeta. cbn [step]. unfold resume_at, resume.
  rewrite Hi, Hp.
  assert (next_item items (self sys) = after_fn (self sys)) as ->.
  { destruct Hnone as [->|Hf]; [done|by apply next_item_no_fetch]. }
  unfold after_fn, phase_of. cbn [self polls]. split; [done|].
  by rewrite list_lookup_insert_eq by by eapply lookup_lt_Some.
Qed.

Lemma for_of_marks_keys strategy items : forall w store,
  is_Some (fetch w) ->
  db w = Some store ->
  Forall (fun x => exists n, parsed (snd x) = Ok n) items ->
  let result := for_of items (visit strategy) w in
  (never_throws w -> fst result = Ok tt)
  /\ (fst result = Ok tt ->
      exists store',
        db (snd result) = Some store'
        /\ (forall k, seen store k = true -> seen store' k = true)
        /\ forall item reply n,
             (item, reply) ∈ items -> parsed reply = Ok n ->
             seen store' (idToCheck strategy item n) = true).
Proof.
  induction items as [|[item reply] items IH]; intros w store Hf Hdb Hall; cbv zeta.
  - split; [done|]. intros _. exists store. split; [done|]. split; [done|].
    by intros item reply n ?%elem_of_nil.
  - apply Forall_cons in Hall as [[n Hn] Hall]. cbn [snd] in Hn.
    rewrite for_of_cons.
    destruct (seen store (idToCheck strategy item n)) eqn:Hs.
    + rewrite (visit_skips strategy item reply w store n Hf Hdb Hn Hs).
      destruct (IH (looked_up item (idToCheck strategy item n) w) store Hf Hdb Hall)
        as (Hok & Hkeys).
      split; [exact Hok|]. intros Hdone.
      destruct (Hkeys Hdone) as (store' & Hdb' & Hmono & Hin).
      exists store'. split; [done|]. split; [done|].
      intros item' reply' n' [[= -> ->]|Hin']%elem_of_cons Hn'.
      * assert (n' = n) as -> by congruence. by apply Hmono.
      * by eapply Hin.
    + rewrite (visit_unseen strategy item reply w store n Hf Hdb Hn Hs).
      destruct (heard w n) as [[]|e] eqn:Hh.
      * destruct (IH (delivered n (idToCheck strategy item n) store
                        (looked_up item (idToCheck strategy item n) w))
                     (store_put (idToCheck strategy item n) true store)
                     Hf eq_refl Hall)
          as (Hok & Hkeys).
        split; [exact Hok|]. intros Hdone.
        destruct (Hkeys Hdone) as (store' & Hdb' & Hmono & Hin).
        exists store'. split; [done|].
        assert (forall k, seen store k = true -> seen store' k = true) as Hmono'.
        { intros k Hk. apply Hmono. rewrite seen_put, Hk. by rewrite orb_true_r. }
        split; [done|].
        intros item' reply' n' [[= -> ->]|Hin']%elem_of_cons Hn'.
        -- assert (n' = n) as -> by congruence. apply Hmono.
           rewrite seen_put. by rewrite bool_decide_eq_true_2.
        -- by eapply Hin.
      * cbn [fst]. split; [|done].
        intros Hnever. unfold heard in Hh. by rewrite Hnever in Hh.
Qed.

(** X8. With the Identity Store present, take a tick in which every listed
    item is fetched and parsed. When no listener throws, the tick does not
    throw. When the tick does not throw it misses nothing: every event of
    the tick is directly followed by the marking of its key, afterwards the
    key of every listed item is seen, and the key of an item that was not
    seen before is marked during this tick. *)
Theorem tick_marks_every_key inboxUrl strategy items w store :
  is_Some (fetch w) ->
  db w = Some store ->
  Forall (fun x => exists n, parsed (snd x) = Ok n) items ->
  let result := tick inboxUrl strategy (Ok items) w in
  (never_throws w -> fst result = Ok tt)
  /\ (fst result = Ok tt ->
      exists store' new,
        db (snd result) = Some store'
        /\ log (snd result) = log w ++ new
        /\ emitted new = map fst (deliveries new)
        /\ forall item reply n,
             (item, reply) ∈ items -> parsed reply = Ok n ->
             store_get store' (idToCheck strategy item n) = Some true
             /\ (store_get store (idToCheck strategy item n) <> Some true ->
                 idToCheck strategy item n ∈ map snd (deliveries new))).
Proof.
  intros Hf Hdb Hall. cbv zeta.
  pose proof (tick_evolves inboxUrl strategy (Ok items) w) as Hev.
  apply (evolves_dedup strategy) with (store := store) in Hev; [|done].
  rewrite tick_eq in *.
  destruct (for_of_marks_keys strategy items
              (record (ListRequested inboxUrl) w) store Hf Hdb Hall)
    as (Hok & Hkeys).
  split; [exact Hok|]. intros Hdone.
  destruct Hev as (store' & new & unmarked & Hdb' & Hlog & He & Hk & _ & Hnone
                   & Hm & _ & _ & Hst & _).
  destruct (Hkeys Hdone) as (store'' & Hdb'' & _ & Hin).
  rewrite (Hnone Hdone), app_nil_r in Hk. rewrite Hk in He.
  exists store', new. do 3 (split; [done|]).
  intros item reply n Hitem Hn.
  assert (store'' = store') as -> by congruence.
  pose proof (Hin item reply n Hitem Hn) as Hseen.
  split; [by apply seen_true_iff|].
  intros Hnot. rewrite <- Hm. apply Hst in Hseen as [Hold|Hnew]; [|done].
  by apply seen_true_iff in Hold.
Qed.

(** X9. The parser of an item is created for the url of the response as
    base IRI and for the content type the response declares; when the
    content-type header is missing or empty, for application/ld+json. *)
Theorem parser_media_type response :
  (headers_get (Response.headers response) "content-type" = None
   \/ headers_get (Response.headers response) "content-type" = Some "" ->
   parsed (Ok response)
   = parseNotification
       (jsonld (Response.url response) "application/ld+json"
               (Response.text response)))
  /\ forall t,
       headers_get (Response.headers response) "content-type" = Some t ->
       t <> "" ->
       parsed (Ok response)
       = parseNotification (jsonld (Response.url response) t (Response.text response)).
Proof.
  unfold parsed, content_type, js_or. cbn [and_then]. split.
  - by intros [-> | ->].
  - intros t -> Hne. cbn [truthy].
    by destruct (String.eqb_spec t "").
Qed.

(** X20. While the flag is not set, a sleeping loop repeats the callback one
    tick after the other, each begun by the timer: the watcher goes through
    the ticks in order, on the inbox url and with the strategy of the loop;
    the loop sleeps again after the last tick, unless a tick throws, which
    rejects the loop at that tick. *)
Theorem loop_repeats_ticks i listings sys p :
  polls sys !! i = Some p ->
  phase p = Sleeping ->
  stopPolling (self sys) = false ->
  let result := ticks (inboxUrl p) (strategy p) listings (self sys) in
  self (run sys (ticks_events i listings)) = snd result
  /\ phase_of i (run sys (ticks_events i listings))
     = Some match fst result with
            | Ok _ => Sleeping
            | Thrown e => Rejected e
            end.
Proof.
  intros Hi Hp Hflag. cbv zeta.
  rewrite (run_drive i _ sys p Hi (ticks_events_reply_to i listings)).
  rewrite drive_ticks by done. cbn [self polls fst snd]. split; [done|].
  unfold phase_of. cbn [polls].
  by rewrite list_lookup_insert_eq by by eapply lookup_lt_Some.
Qed.

(** X21. A listener that throws ends the polling loop and leaves the key
    unmarked. When the reply for an item parses to a notification whose key
    is not seen and a listener throws at the event: the event has been
    emitted, nothing is marked, the store is as before, no further item of
    the listing is requested, and the loop is rejected with the exception of
    the listener, for good. The item is therefore not deduplicated: the next
    time it is visited, its notification is emitted again. *)
Theorem listener_failure_ends_polling sys i p item rest reply n store e evs :
  polls sys !! i = Some p ->
  phase p = Fetching item rest ->
  is_Some (fetch (self sys)) ->
  db (self sys) = Some store ->
  parsed reply = Ok n ->
  seen store (idToCheck (strategy p) item n) = false ->
  heard (self sys) n = Thrown e ->
  let sys' := step sys (Fetched i reply) in
  log (self sys')
  = log (self sys) ++ [Queried (idToCheck (strategy p) item n); Emitted n]
  /\ db (self sys') = Some store
  /\ phase_of i sys' = Some (Rejected e)
  /\ phase_of i (run sys' evs) = Some (Rejected e)
  /\ emitted (log (snd (visit (strategy p) (item, reply) (self sys'))))
     = emitted (log (self sys)) ++ [n; n].
Proof.
  intros Hi Hp Hf Hdb Hn Hs Hh. cbv zeta.
  assert (step sys (Fetched i reply)
          = {| self := record (Emitted n)
                         (record (Queried (idToCheck (strategy p) item n))
                                 (self sys));
               polls := <[i := set_phase (Rejected e) p]> (polls sys) |}) as ->.
  { cbn [step]. unfold resume_at, resume. rewrite Hi, Hp, receive_eq, Hn, Hdb, Hs.
    by rewrite Hh. }
  assert (<[i := set_phase (Rejected e) p]> (polls sys) !! i
          = Some (set_phase (Rejected e) p)) as Hi'.
  { apply list_lookup_insert_eq. by eapply lookup_lt_Some. }
  cbn [self]. split; [cbn [record log]; by rewrite <- app_assoc|].
  split; [done|].
  split; [unfold phase_of; cbn [polls]; by rewrite Hi'|].
  split; [apply run_ended; [|done]; unfold phase_of; cbn [polls]; by rewrite Hi'|].
  erewrite visit_unseen; [|done|done|done|done]. clear Hh.
  destruct (heard _ n) as [[]|e'];
    cbn [snd delivered looked_up record set_db log];
    by rewrite <- ?app_assoc, !emitted_app.
Qed.

End Watcher.

(** * Properties of ingestion *)

Lemma truthy_Some_empty s : truthy (Some s) = false -> s = "".
Proof.
  unfold truthy. intros H. apply negb_false_iff in H. by apply String.eqb_eq in H.
Qed.

Lemma on_data_eq acc cur q :
  on_data (acc, cur) q =
    (acc ++ [q],
     if negb (truthy cur) && typed_activity q
     then Some (value (subject q)) else cur).
Proof. unfold on_data, typed_activity. by rewrite andb_assoc. Qed.

(** Once [id] is truthy no later quad changes it. *)
Lemma fold_on_data_set data : forall acc cur,
  truthy cur = true ->
  fold_left on_data data (acc, cur) = (acc ++ data, cur).
Proof.
  induction data as [|q data IH]; intros acc cur Hcur; cbn [fold_left].
  - by rewrite app_nil_r.
  - rewrite on_data_eq, Hcur. cbn [negb andb]. rewrite IH by exact Hcur.
    by rewrite <- app_assoc.
Qed.

Lemma fold_on_data data : forall acc cur,
  truthy cur = false ->
  fold_left on_data data (acc, cur) =
    (acc ++ data,
     match find (fun q => typed_activity q && truthy (Some (value (subject q)))) data with
     | Some q => Some (value (subject q))
     | None =>
         match find typed_activity data with
         | Some q => Some ""
         | None => cur
         end
     end).
Proof.
  induction data as [|q data IH]; intros acc cur Hcur; cbn [fold_left find].
  - by rewrite app_nil_r.
  - rewrite on_data_eq, Hcur. cbn [negb andb].
    destruct (typed_activity q) eqn:Ht; cbn [andb].
    + destruct (truthy (Some (value (subject q)))) eqn:Hs.
      * rewrite fold_on_data_set by exact Hs. by rewrite <- app_assoc.
      * rewrite IH by exact Hs. rewrite <- app_assoc. cbn [app].
        apply truthy_Some_empty in Hs. rewrite Hs.
        destruct (find _ data); [done|]. by destruct (find typed_activity data).
    + rewrite IH by exact Hcur. by rewrite <- app_assoc.
Qed.

Lemma parseNotification_end data :
  parseNotification {| chunks := data; ending := End |}
  = Ok {| quads := data; id := derived_id data |}.
Proof.
  unfold parseNotification. cbn [chunks ending].
  rewrite (fold_on_data data [] None eq_refl). reflexivity.
Qed.

(** The seven recognized activity types, spelled out. *)
Lemma AS_types_spelled :
  AS_types =
    ["https://www.w3.org/ns/activitystreams#Create";
     "https://www.w3.org/ns/activitystreams#Update";
     "https://www.w3.org/ns/activitystreams#Remove";
     "https://www.w3.org/ns/activitystreams#Announce";
     "https://www.w3.org/ns/activitystreams#Offer";
     "https://www.w3.org/ns/activitystreams#Accept";
     "https://www.w3.org/ns/activitystreams#Reject"].
Proof. reflexivity. Qed.

Lemma includes_elem_of xs x : includes xs x = bool_decide (x ∈ xs).
Proof.
  induction xs as [|y xs IH]; cbn [includes].
  - symmetry. apply bool_decide_eq_false_2. by intros ?%elem_of_nil.
  - rewrite IH. destruct (String.eqb_spec y x) as [->|Hne]; cbn [orb].
    + symmetry. apply bool_decide_eq_true_2. by left.
    + apply bool_decide_ext. rewrite elem_of_cons.
      split; [by right | by intros [?|?]].
Qed.

Lemma derived_id_first data q :
  find typed_activity data = Some q ->
  value (subject q) <> "" ->
  derived_id data = Some (value (subject q)).
Proof.
  unfold derived_id.
  induction data as [|q' data IH]; cbn [find]; [done|].
  destruct (typed_activity q') eqn:Ht; cbn [andb].
  - intros [= ->] Hne.
    destruct (truthy (Some (value (subject q)))) eqn:Hs; [done|].
    by apply truthy_Some_empty in Hs.
  - apply IH.
Qed.

Lemma derived_id_none data :
  find typed_activity data = None -> derived_id data = None.
Proof.
  unfold derived_id. intros Hnone. rewrite Hnone.
  induction data as [|q' data IH]; cbn [find] in *; [done|].
  destruct (typed_activity q') eqn:Ht; [done|]. cbn [andb]. by apply IH.
Qed.

(** C3, as stated, fails: [id] is not always the subject of the first
    activity-typed statement. When that subject is the empty string the guard
    [!id] still holds, and a later activity-typed statement sets [id] again. *)
Lemma parseNotification_first_typed_counterexample :
  let first := triple "" rdf_type as_Create in
  let data := [first; triple "urn:b" rdf_type as_Update] in
  find typed_activity data = Some first /\
  exists n, parseNotification {| chunks := data; ending := End |} = Ok n /\
            id n = Some "urn:b" /\
            id n <> Some (value (subject first)).
Proof.
  cbv zeta. split; [reflexivity|].
  eexists. split; [reflexivity|]. split; [reflexivity|discriminate].
Qed.

(** C3 (amended). For every stream of statements that ends without error,
    ingestion succeeds and returns all statements in input order; [id] is the
    subject of the first statement whose predicate is rdf:type, whose object
    is one of the seven activity types and whose subject is not the empty
    string; in particular it is the subject of the first activity-typed
    statement whenever that subject is not empty, and it is undefined when
    there is no activity-typed statement. *)
Theorem parseNotification_derives_id (data : list Quad) :
  parseNotification {| chunks := data; ending := End |}
    = Ok {| quads := data; id := derived_id data |}
  /\ (forall q, find typed_activity data = Some q ->
                value (subject q) <> "" ->
                derived_id data = Some (value (subject q)))
  /\ (find typed_activity data = None -> derived_id data = None)
  /\ (forall q, typed_activity q =
                (String.eqb (value (predicate q)) rdf_type
                 && bool_decide (value (object q) ∈
                      [as_Create; as_Update;
                       "https://www.w3.org/ns/activitystreams#Remove";
                       "https://www.w3.org/ns/activitystreams#Announce";
                       "https://www.w3.org/ns/activitystreams#Offer";
                       "https://www.w3.org/ns/activitystreams#Accept";
                       "https://www.w3.org/ns/activitystreams#Reject"]))).
Proof.
  split; [apply parseNotification_end|].
  split; [apply derived_id_first|].
  split; [apply derived_id_none|].
  intros q. unfold typed_activity.
  by rewrite includes_elem_of, AS_types_spelled.
Qed.

Lemma parseNotification_derives_id_witness :
  let S := "https://example.org/activity/1" in
  let data := [triple S as_actor "urn:alice"; triple S rdf_type as_Create] in
  exists n, parseNotification {| chunks := data; ending := End |} = Ok n /\
            quads n = data /\ id n = Some S.
Proof.
  cbv zeta.
  destruct (parseNotification_derives_id
              [triple "https://example.org/activity/1" as_actor "urn:alice";
               triple "https://example.org/activity/1" rdf_type as_Create])
    as (Hparse & Hfirst & _ & _).
  eexists. split; [exact Hparse|]. split; [reflexivity|].
  cbn [id].
  apply (Hfirst (triple "https://example.org/activity/1" rdf_type as_Create));
    [reflexivity | discriminate].
Defined.

(** * Properties of the factory, and of the watcher it returns *)

(** The sample watchers are what the constructor returns, with caching on a
    disk without files and with no options. *)
Example sample_watchers :
  constructor empty_disk sample_session
    {| WatcherOptions.cache := Some true;
       WatcherOptions.cachePath := None;
       WatcherOptions.inboxPath := None |} = Ok caching_watcher
  /\ constructor empty_disk sample_session WatcherOptions.empty = Ok plain_watcher.
Proof. split; reflexivity. Qed.

(** A tick of a watcher with a store, on two new resources. *)
Example sample_tick :
  emitted (log (snd (tick sample_jsonld inbox "activity"
    (Ok [(item1, Ok (sample_response "https://pod.example/inbox/1" "urn:a"));
         (item2, Ok (sample_response "https://pod.example/inbox/2" "urn:b"))])
    caching_watcher)))
  = [sample_notification "https://pod.example/inbox/1" "urn:a";
     sample_notification "https://pod.example/inbox/2" "urn:b"].
Proof. vm_compute. reflexivity. Qed.

(** C9. A watcher obtained from [InboxWatcher.create] is built by the
    constructor with no options: whatever the credentials say (a [cachePath]
    included) and whatever is on disk, it has no Identity Store, and since an
    event is emitted only when the store is present, it never emits a
    'notification' event, whatever is called on it and whatever the network
    replies. *)
Theorem create_never_opens_store generateCSSToken authenticateToken jsonld
    disk baseUrl options w :
  create generateCSSToken authenticateToken disk baseUrl options = Ok w ->
  (exists session,
      login generateCSSToken authenticateToken baseUrl options = Ok session
      /\ constructor disk session WatcherOptions.empty = Ok w)
  /\ db w = None
  /\ (forall disk',
        create generateCSSToken authenticateToken disk' baseUrl options = Ok w)
  /\ forall evs,
       db (self (run jsonld (idle w) evs)) = None
       /\ emitted (log (self (run jsonld (idle w) evs))) = [].
Proof.
  unfold create. intros Hcreate.
  destruct (login generateCSSToken authenticateToken baseUrl options)
    as [session|e]; [|done].
  cbn [and_then] in *. injection Hcreate as <-.
  split; [by exists session|]. split; [done|]. split; [done|].
  intros evs.
  by destruct (run_no_db jsonld evs (idle (constructed session None)) eq_refl)
    as [-> ->].
Qed.

(** C1: the code at a failing input. Without an Identity Store nothing is
    emitted: a resource that is listed, fetched and parsed in two consecutive
    ticks yields no event, where two are expected. *)
Theorem no_store_no_event_example :
  let reply := Ok (sample_response "https://pod.example/inbox/1" "urn:a") in
  let listing := Ok [(item1, reply)] in
  let after := ticks sample_jsonld inbox "activity" [listing; listing] plain_watcher in
  let polled :=
    run sample_jsonld (idle plain_watcher)
      [CallStart inbox None;
       Listed 0 (Ok [item1]); Fetched 0 reply; Timer 0;
       Listed 0 (Ok [item1]); Fetched 0 reply] in
  db plain_watcher = None
  /\ parsed sample_jsonld reply
     = Ok (sample_notification "https://pod.example/inbox/1" "urn:a")
  /\ fst after = Ok tt
  /\ requested (log (snd after))
     = ["https://pod.example/inbox/1"; "https://pod.example/inbox/1"]
  /\ emitted (log (snd after)) = []
  /\ requested (log (self polled))
     = ["https://pod.example/inbox/1"; "https://pod.example/inbox/1"]
  /\ emitted (log (self polled)) = [].
Proof. cbv zeta. repeat split; vm_compute; reflexivity. Qed.

(** ** Claims about the send path *)

Lemma headers_get_None h name :
  headers_get h name = None <-> forall v, (name, v) ∉ h.
Proof.
  induction h as [|[k v] h IH]; cbn [headers_get].
  - split; [|done]. intros _ v. apply not_elem_of_nil.
  - destruct (String.eqb_spec k name) as [->|Hne].
    + split; [done|]. intros H. destruct (H v). by left.
    + rewrite IH. split.
      * intros H v' [[= ? ?]|?]%elem_of_cons; [done|]. by eapply H.
      * intros H v' Hin. apply (H v'). by right.
Qed.

Lemma headers_get_Some h name v :
  headers_get h name = Some v -> (name, v) ∈ h.
Proof.
  induction h as [|[k v'] h IH]; cbn [headers_get]; [done|].
  destruct (String.eqb_spec k name) as [->|Hne].
  - intros [= ->]. by left.
  - intros H. right. by apply IH.
Qed.

(** C8. Once the login and the serialization have succeeded,
    [sendNotification] makes one request: a POST to the inbox url, through
    the fetch of the session, with the serialized notification as body and
    the header content-type: application/ld+json. Its result has [success]
    equal to the [ok] flag of the response and [location] equal to the value
    of the response's location header, null when there is none; when the
    request throws, so does [sendNotification]. *)
Theorem sendNotification_posts generateCSSToken authenticateToken
    serializerJsonld http notification inboxUrl options session result :
  login generateCSSToken authenticateToken (login_url options inboxUrl) options
    = Ok session ->
  serialize serializerJsonld notification = Ok result ->
  let request :=
    {| Request.method := "POST";
       Request.body := Some result;
       Request.headers := [("content-type", "application/ld+json")] |} in
  let sent :=
    sendNotification generateCSSToken authenticateToken serializerJsonld http
      notification inboxUrl options in
  (forall response,
      http (SessionInfo.fetch session) inboxUrl request = Ok response ->
      exists r,
        sent = Ok r
        /\ success r = Response.ok response
        /\ location r = headers_get (Response.headers response) "location"
        /\ ((forall v, ("location", v) ∉ Response.headers response) ->
            location r = None)
        /\ (forall v, location r = Some v ->
            ("location", v) ∈ Response.headers response))
  /\ (forall e,
        http (SessionInfo.fetch session) inboxUrl request = Thrown e ->
        sent = Thrown e)
  /\ (forall http',
        http' (SessionInfo.fetch session) inboxUrl request
          = http (SessionInfo.fetch session) inboxUrl request ->
        sendNotification generateCSSToken authenticateToken serializerJsonld
          http' notification inboxUrl options = sent).
Proof.
  intros Hlogin Hser. cbv zeta. unfold sendNotification.
  rewrite Hlogin, Hser. cbn [and_then]. fold (post_request result).
  unfold post_request.
  split; [|split].
  - intros response ->. cbn [and_then]. eexists. split; [done|].
    cbn [success location]. split; [done|]. split; [done|].
    split; [by intros ?%headers_get_None|apply headers_get_Some].
  - by intros e ->.
  - by intros http' ->.
Qed.

(** * Counterexamples and instances *)

(** C2, as stated, fails: a strategy token other than "notification_id" does
    not select the url of the resource. Under the token "url" the key is the
    derived id, and of two distinct resources with the same derived id only
    the first is emitted. And under "notification_id" the second is not
    emitted either when a listener throws at the first: the tick ends
    there. *)
Lemma other_token_keys_on_id_counterexample :
  let listing := Ok [(item1, reply1); (item2, reply2)] in
  let after := tick sample_jsonld inbox "url" listing caching_watcher in
  let unheard :=
    tick sample_jsonld inbox "notification_id" listing fragile_watcher in
  parsed sample_jsonld reply1 = Ok notification1
  /\ parsed sample_jsonld reply2 = Ok notification2
  /\ idToCheck "url" item1 notification1 = Some "urn:a"
  /\ idToCheck "url" item1 notification1 <> Some (ResourceInfo.url item1)
  /\ fst after = Ok tt
  /\ emitted (log (snd after)) = [notification1]
  /\ emitted (log (snd after)) <> [notification1; notification2]
  /\ fst unheard = Thrown "listener failed"
  /\ emitted (log (snd unheard)) = [notification1]
  /\ emitted (log (snd unheard)) <> [notification1; notification2].
Proof. cbv zeta. repeat split; vm_compute; (reflexivity || discriminate). Qed.

Lemma strategy_selects_key_witness :
  let after strategy :=
    tick sample_jsonld inbox strategy (Ok [(item1, reply1); (item2, reply2)])
         caching_watcher in
  emitted (log (snd (after "notification_id"))) = [notification1; notification2]
  /\ emitted (log (snd (after "activity"))) = [notification1].
Proof.
  cbv beta zeta.
  destruct (strategy_selects_key sample_jsonld) as (_ & _ & _ & H).
  destruct (H inbox caching_watcher ∅ item1 item2 reply1 reply2
              notification1 notification2) as (Hboth & _ & Hone);
    [by eexists|reflexivity|reflexivity|reflexivity|reflexivity
    |discriminate|reflexivity|reflexivity|reflexivity|reflexivity|].
  split; [exact Hboth|].
  destruct (Hone "activity") as [_ Hfirst]; [discriminate|exact Hfirst].
Defined.

(** C4, as stated, fails: when the request for the second of three listed
    resources throws, the event for the first is emitted and none for the
    third; the loop is rejected, and the timer starts no further tick. *)
Lemma failing_item_aborts_tick_counterexample :
  let polled :=
    run sample_jsonld (idle caching_watcher)
      [CallStart inbox None;
       Listed 0 (Ok [item1; item2; item3]);
       Fetched 0 reply1; Fetched 0 (Thrown "ECONNRESET"); Fetched 0 reply3;
       Timer 0; Listed 0 (Ok [item3]); Fetched 0 reply3] in
  parsed sample_jsonld reply3 = Ok notification3
  /\ requested (log (self polled))
     = ["https://pod.example/inbox/1"; "https://pod.example/inbox/2"]
  /\ emitted (log (self polled)) = [notification1]
  /\ (notification3 ∉ emitted (log (self polled)))
  /\ phase_of 0 polled = Some (Rejected "ECONNRESET").
Proof.
  cbv zeta. repeat split; try (vm_compute; reflexivity).
  assert (emitted (log (self (run sample_jsonld (idle caching_watcher)
      [CallStart inbox None;
       Listed 0 (Ok [item1; item2; item3]);
       Fetched 0 reply1; Fetched 0 (Thrown "ECONNRESET"); Fetched 0 reply3;
       Timer 0; Listed 0 (Ok [item3]); Fetched 0 reply3]))) = [notification1])
    as -> by (vm_compute; reflexivity).
  intros [Heq|Hin%elem_of_nil]%elem_of_cons; [discriminate Heq|done].
Qed.

Lemma item_failure_ends_polling_witness :
  let sys := start inbox None (idle caching_watcher) in
  let listing :=
    Ok [(item1, reply1); (item2, Thrown "ECONNRESET"); (item3, reply3)] in
  let sys' := run sample_jsonld sys (tick_events 0 listing) in
  emitted (log (self sys')) = [notification1]
  /\ phase_of 0 sys' = Some (Rejected "ECONNRESET").
Proof.
  cbv zeta.
  destruct (item_failure_ends_polling sample_jsonld
              (start inbox None (idle caching_watcher)) 0
              {| inboxUrl := inbox; strategy := "activity"; phase := Listing |}
              [(item1, reply1)] item2 (Thrown "ECONNRESET") [(item3, reply3)]
              "ECONNRESET")
    as (Hself & Hphase & _);
    [reflexivity|reflexivity|by eexists|reflexivity|reflexivity|].
  cbn [app] in Hself, Hphase. split; [|exact Hphase].
  rewrite Hself. vm_compute. reflexivity.
Defined.

Lemma stop_during_tick_witness :
  let sys :=
    run sample_jsonld (idle caching_watcher)
      [CallStart inbox None; Listed 0 (Ok [item1; item3])] in
  let evs := [Fetched 0 reply1; Fetched 0 reply3] in
  let stopped := run sample_jsonld (step sample_jsonld sys CallStop) evs in
  phase_of 0 sys = Some (Fetching item1 [item3])
  /\ emitted (log (self stopped)) = [notification1; notification3]
  /\ phase_of 0 stopped = Some Resolved
  /\ run sample_jsonld stopped [Timer 0; Listed 0 (Ok [item2]); Fetched 0 reply2]
     = stopped.
Proof.
  cbv zeta. split; [reflexivity|].
  destruct (stop_during_tick sample_jsonld
              (run sample_jsonld (idle caching_watcher)
                 [CallStart inbox None; Listed 0 (Ok [item1; item3])])
              0
              {| inboxUrl := inbox; strategy := "activity";
                 phase := Fetching item1 [item3] |}
              [Fetched 0 reply1; Fetched 0 reply3]
              [Timer 0; Listed 0 (Ok [item2]); Fetched 0 reply2]
              inbox (Some "notification_id"))
    as (Hlog & _ & Hphase & _ & _ & Hone & _).
  - reflexivity.
  - exact I.
  - repeat constructor.
  - vm_compute. reflexivity.
  - repeat constructor.
  - split; [rewrite Hlog; vm_compute; reflexivity|].
    split; [exact Hphase|exact (Hone eq_refl)].
Defined.




Lemma sendNotification_posts_witness :
  sendNotification sample_generateCSSToken sample_authenticateToken
    sample_serializer sample_http notification1 inbox sample_credentials
  = Ok {| success := true; location := Some "https://pod.example/inbox/42" |}.
Proof.
  destruct (sendNotification_posts sample_generateCSSToken
              sample_authenticateToken sample_serializer sample_http
              notification1 inbox sample_credentials sample_session
              "{ @context: https://www.w3.org/ns/activitystreams }"
              eq_refl eq_refl) as (Hok & _ & _).
  destruct (Hok {| Response.url := inbox; Response.ok := true;
                   Response.headers := [("location", inbox +:+ "42")];
                   Response.text := "" |} eq_refl)
    as (r & Hsent & Hsuccess & Hlocation & _).
  rewrite Hsent. destruct r as [success0 location0].
  cbn [success location] in Hsuccess, Hlocation.
  rewrite Hsuccess, Hlocation. reflexivity.
Defined.

Lemma create_never_opens_store_witness :
  create sample_generateCSSToken sample_authenticateToken sample_disk
    "https://pod.example/" sample_credentials = Ok plain_watcher
  /\ db plain_watcher = None
  /\ emitted (log (self (run sample_jsonld (idle plain_watcher)
       [CallStart inbox None; Listed 0 (Ok [item1]); Fetched 0 reply1]))) = [].
Proof.
  cbv zeta. split; [reflexivity|].
  destruct (create_never_opens_store sample_generateCSSToken
              sample_authenticateToken sample_jsonld sample_disk
              "https://pod.example/" sample_credentials plain_watcher)
    as (_ & Hdb & _ & Hrun); [reflexivity|].
  split; [exact Hdb|].
  exact (proj2 (Hrun [CallStart inbox None; Listed 0 (Ok [item1]); Fetched 0 reply1])).
Defined.

Lemma undefined_id_shared_key_witness :
  let untyped1 := Ok (sample_response "https://pod.example/inbox/1" "{}") in
  let untyped2 := Ok (sample_response "https://pod.example/inbox/2" "{}") in
  let w1 := snd (visit sample_jsonld "activity" (item1, untyped1) caching_watcher) in
  let w2 :=
    self (run sample_jsonld (idle w1)
            [CallStart inbox None; Listed 0 (Ok [item3]); Fetched 0 reply3]) in
  emitted (log w1) = [{| quads := []; id := None |}]
  /\ emitted (log w2) = [{| quads := []; id := None |}; notification3]
  /\ visit sample_jsonld "activity" (item2, untyped2) w2
     = (Ok tt, looked_up item2 None w2).
Proof.
  cbv zeta.
  destruct (undefined_id_shared_key sample_jsonld caching_watcher ∅ item1
              (Ok (sample_response "https://pod.example/inbox/1" "{}"))
              {| quads := []; id := None |})
    as (_ & Hlog & Hlater);
    [by eexists|reflexivity|reflexivity|reflexivity|reflexivity|reflexivity|].
  split; [rewrite Hlog; reflexivity|].
  split; [vm_compute; reflexivity|].
  apply (Hlater (idle _)
                [CallStart inbox None; Listed 0 (Ok [item3]); Fetched 0 reply3]
                item2 (Ok (sample_response "https://pod.example/inbox/2" "{}"))
                {| quads := []; id := None |});
    reflexivity.
Defined.

(** * Further properties *)

(** ** Ingestion *)

Lemma find_app_first {A} (f : A -> bool) l l' x :
  find f l = Some x -> find f (l ++ l') = Some x.
Proof.
  induction l as [|y l IH]; cbn [find app]; [done|].
  by destruct (f y).
Qed.

Lemma derived_id_truthy data :
  truthy (derived_id data) = true ->
  exists q,
    find (fun q => typed_activity q && truthy (Some (value (subject q)))) data
    = Some q
    /\ derived_id data = Some (value (subject q)).
Proof.
  unfold derived_id.
  destruct (find (fun q => _ && _) data) as [q|]; [by eexists|].
  by destruct (find typed_activity data).
Qed.

(** X10. The id ingestion derives is never invented: when it is defined it
    is the subject of a statement of the input that is activity-typed, and it
    is undefined exactly when no statement of the input is activity-typed. *)
Theorem derived_id_is_a_typed_subject (data : list Quad) :
  exists n,
    parseNotification {| chunks := data; ending := End |} = Ok n
    /\ (forall s, id n = Some s ->
          exists q, q ∈ data /\ typed_activity q = true
                    /\ value (subject q) = s)
    /\ (id n = None <-> forall q, q ∈ data -> typed_activity q = false).
Proof.
  eexists. split; [apply parseNotification_end|]. cbn [id].
  unfold derived_id. split.
  - intros s.
    destruct (find (fun q => _ && _) data) as [q|] eqn:Hq.
    + intros [= <-]. apply find_some in Hq as [Hin Hq].
      apply andb_true_iff in Hq as [Ht _].
      exists q. by rewrite list_elem_of_In.
    + destruct (find typed_activity data) as [q|] eqn:Hq'; [|done].
      intros [= <-]. apply find_some in Hq' as [Hin Ht].
      pose proof (find_none _ _ Hq q Hin) as Hnone. cbn beta in Hnone.
      rewrite Ht in Hnone. cbn [andb] in Hnone.
      exists q. rewrite list_elem_of_In. by apply truthy_Some_empty in Hnone.
  - destruct (find (fun q => _ && _) data) as [q|] eqn:Hq.
    + split; [done|]. intros Hall. apply find_some in Hq as [Hin Hq].
      apply andb_true_iff in Hq as [Ht _].
      rewrite Hall in Ht; [done|by apply list_elem_of_In].
    + destruct (find typed_activity data) as [q|] eqn:Hq'.
      * split; [done|]. intros Hall. apply find_some in Hq' as [Hin Ht].
        rewrite Hall in Ht; [done|by apply list_elem_of_In].
      * split; [|done]. intros _ q Hin.
        apply (find_none _ _ Hq'). by apply list_elem_of_In.
Qed.

(** X11. Once the statements read so far give a non-empty id, no later
    statement changes it: the id of a stream is the id of any of its prefixes
    on which it is non-empty, and the statements of the prefix come first in
    the result. *)
Theorem id_settled_by_prefix (data more : list Quad) (n : INotification) :
  parseNotification {| chunks := data; ending := End |} = Ok n ->
  truthy (id n) = true ->
  parseNotification {| chunks := data ++ more; ending := End |}
  = Ok {| quads := quads n ++ more; id := id n |}.
Proof.
  rewrite !parseNotification_end. intros [= <-]. cbn [id quads]. intros Ht.
  destruct (derived_id_truthy data Ht) as (q & Hq & Hid).
  do 2 f_equal. rewrite Hid. unfold derived_id.
  by rewrite (find_app_first _ data more q Hq).
Qed.

Lemma find_filter_implied {A} (f g : A -> bool) l :
  (forall x, f x = true -> g x = true) ->
  find f (List.filter g l) = find f l.
Proof.
  intros Hfg. induction l as [|x l IH]; [done|]. cbn [List.filter find].
  destruct (g x) eqn:Hg; cbn [find].
  - by rewrite IH.
  - destruct (f x) eqn:Hf; [|done]. apply Hfg in Hf. congruence.
Qed.

(** X12. Only the activity-typed statements matter for the id: dropping
    every other statement from the input gives the same id. *)
Theorem id_ignores_untyped_statements (data : list Quad) :
  exists n n',
    parseNotification {| chunks := data; ending := End |} = Ok n
    /\ parseNotification
         {| chunks := List.filter typed_activity data; ending := End |} = Ok n'
    /\ id n' = id n.
Proof.
  do 2 eexists. split; [apply parseNotification_end|].
  split; [apply parseNotification_end|]. cbn [id]. unfold derived_id.
  rewrite !find_filter_implied; [done|done|].
  by intros x [? _]%andb_true_iff.
Qed.

Lemma id_settled_by_prefix_witness :
  parseNotification
    {| chunks := [triple "urn:a" rdf_type as_Create]
                 ++ [triple "urn:b" rdf_type as_Update];
       ending := End |}
  = Ok {| quads := [triple "urn:a" rdf_type as_Create]
                   ++ [triple "urn:b" rdf_type as_Update];
          id := Some "urn:a" |}.
Proof.
  apply (id_settled_by_prefix [triple "urn:a" rdf_type as_Create]
           [triple "urn:b" rdf_type as_Update]
           {| quads := [triple "urn:a" rdf_type as_Create]; id := Some "urn:a" |});
    reflexivity.
Defined.

(** ** serialize *)

Lemma append_assoc_ (a b c : string) : (a +:+ b) +:+ c = a +:+ (b +:+ c).
Proof.
  induction a as [|ch a IH]; [reflexivity|].
  change (String ch ((a +:+ b) +:+ c) = String ch (a +:+ (b +:+ c))).
  by f_equal.
Qed.

Lemma append_nil_r_ (a : string) : a +:+ "" = a.
Proof.
  induction a as [|ch a IH]; [reflexivity|].
  change (String ch (a +:+ "") = String ch a). by f_equal.
Qed.

Lemma fold_append (chunks : list string) : forall acc,
  fold_left String.append chunks acc = acc +:+ String.concat "" chunks.
Proof.
  induction chunks as [|c chunks IH]; intros acc.
  - cbn [fold_left String.concat]. by rewrite append_nil_r_.
  - cbn [fold_left]. rewrite IH, append_assoc_. f_equal.
    destruct chunks as [|c' chunks]; [|reflexivity].
    cbn [String.concat]. apply append_nil_r_.
Qed.

(** X13. The serialized document is the chunks the serializer delivers,
    joined in order with nothing between them and none left out; it is built
    from the statements of the notification alone, with the activitystreams
    vocabulary as context; and when the serializer ends with an error the
    promise is rejected with it, whatever was delivered before. *)
Theorem serialize_joins_chunks
    (serializerJsonld : string -> list Quad -> Stream string)
    (notification : INotification) :
  let output :=
    serializerJsonld "https://www.w3.org/ns/activitystreams" (quads notification) in
  serialize serializerJsonld notification =
    match ending output with
    | End => Ok (String.concat "" (chunks output))
    | Error_ e => Thrown e
    end.
Proof.
  cbv zeta. unfold serialize, serialize_context.
  destruct (ending _); [|done]. by rewrite fold_append.
Qed.

(** ** sendNotification *)

(** X14. [sendNotification] authenticates against one url only: the
    [authUrl] of the options when it is given and not empty, else the [idp]
    when it is not empty, else the inbox url. What authentication against any
    other url would answer does not matter. *)
Theorem sendNotification_authenticates_once generateCSSToken authenticateToken
    authenticateToken' serializerJsonld http notification inboxUrl options :
  let fallback :=
    if String.eqb (Credentials.idp options) "" then inboxUrl
    else Credentials.idp options in
  let chosen :=
    match Credentials.authUrl options with
    | Some a => if String.eqb a "" then fallback else a
    | None => fallback
    end in
  (forall token, authenticateToken' token chosen = authenticateToken token chosen) ->
  sendNotification generateCSSToken authenticateToken' serializerJsonld http
    notification inboxUrl options
  = sendNotification generateCSSToken authenticateToken serializerJsonld http
      notification inboxUrl options.
Proof.
  cbv zeta. intros Hsame. unfold sendNotification, login.
  assert (login_url options inboxUrl =
          match Credentials.authUrl options with
          | Some a =>
              if String.eqb a "" then
                if String.eqb (Credentials.idp options) "" then inboxUrl
                else Credentials.idp options
              else a
          | None =>
              if String.eqb (Credentials.idp options) "" then inboxUrl
              else Credentials.idp options
          end) as ->.
  { unfold login_url, js_or, truthy.
    destruct (Credentials.authUrl options) as [a|];
      [destruct (String.eqb a "") eqn:Ha|];
      cbn [negb]; rewrite ?Ha; cbn [negb];
      destruct (String.eqb (Credentials.idp options) "") eqn:Hi;
      cbn [negb]; by rewrite ?Hi. }
  destruct (generateCSSToken options) as [token|e]; [|done].
  cbn [and_then]. by rewrite Hsame.
Qed.

(** X15. [sendNotification] stops at the first failure: when the token
    cannot be generated it does not authenticate, when the login fails it does
    not serialize, and when the serialization fails it sends no request; in
    each case it is rejected with the exception of the failing step, whatever
    the later steps would have answered. *)
Theorem sendNotification_fails_early generateCSSToken authenticateToken
    serializerJsonld http notification inboxUrl options e :
  let sent :=
    sendNotification generateCSSToken authenticateToken serializerJsonld http
      notification inboxUrl options in
  (generateCSSToken options = Thrown e -> sent = Thrown e)
  /\ (forall token,
        generateCSSToken options = Ok token ->
        authenticateToken token (login_url options inboxUrl) = Thrown e ->
        sent = Thrown e)
  /\ (forall session,
        login generateCSSToken authenticateToken
              (login_url options inboxUrl) options = Ok session ->
        serialize serializerJsonld notification = Thrown e ->
        sent = Thrown e).
Proof.
  cbv zeta. unfold sendNotification. split; [|split].
  - unfold login. by intros ->.
  - unfold login. intros token Hg Ha. rewrite Hg. cbn [and_then]. by rewrite Ha.
  - intros session Hl Hs. rewrite Hl. cbn [and_then]. by rewrite Hs.
Qed.

(** ** init *)

Lemma find_url_none inboxUrl (containers : list ResourceInfo.t) :
  find (fun el => String.eqb (ResourceInfo.url el) inboxUrl) containers = None
  <-> forall el, el ∈ containers -> ResourceInfo.url el <> inboxUrl.
Proof.
  split.
  - intros Hnone el Hin Heq.
    pose proof (find_none _ _ Hnone el (proj1 (list_elem_of_In _ _) Hin)) as H.
    cbn beta in H. rewrite Heq, String.eqb_refl in H. done.
  - intros Hall.
    destruct (find _ containers) as [el|] eqn:Hfind; [|done].
    apply find_some in Hfind as [Hin Heq]. apply String.eqb_eq in Heq.
    by destruct (Hall el (proj2 (list_elem_of_In _ _) Hin)).
Qed.

(** What [init] does, case by case. *)
Lemma init_cases w baseUrl inboxPath listing made permitted :
  let inboxUrl := baseUrl +:+ default "inbox/" inboxPath in
  let grant :=
    ChangePermissionsCall inboxUrl
      [{| PermissionOperation.type := "agent";
          PermissionOperation.append := true;
          PermissionOperation.read := true;
          PermissionOperation.id := webId w |}] in
  let granted :=
    match permitted with
    | Ok _ => Ok inboxUrl
    | Thrown e => Thrown e
    end in
  init w baseUrl inboxPath listing made permitted =
    match listing with
    | Thrown e => ([ListCall baseUrl], Thrown e)
    | Ok containers =>
        match find (fun el => String.eqb (ResourceInfo.url el) inboxUrl)
                   containers with
        | Some _ => ([ListCall baseUrl; grant], granted)
        | None =>
            match made with
            | Thrown e => ([ListCall baseUrl; MakeDirectoryCall inboxUrl], Thrown e)
            | Ok _ =>
                ([ListCall baseUrl; MakeDirectoryCall inboxUrl; grant], granted)
            end
        end
    end.
Proof.
  cbv zeta. unfold init, call, no_call, calls_bind.
  assert (match inboxPath with Some p => p | None => "inbox/" end
          = default "inbox/" inboxPath) as -> by by destruct inboxPath.
  destruct listing as [containers|e]; [|done].
  destruct (find _ containers); [by destruct permitted|].
  destruct made; [by destruct permitted|done].
Qed.

(** X17. [init] lists the base container first, and creates the inbox only
    when the listing succeeded and shows no resource with the inbox url; an
    inbox that is listed is never created again. *)
Theorem init_creates_only_missing_inbox w baseUrl inboxPath listing made permitted :
  let inboxUrl := baseUrl +:+ default "inbox/" inboxPath in
  let calls := fst (init w baseUrl inboxPath listing made permitted) in
  (exists later, calls = ListCall baseUrl :: later)
  /\ forall x,
       MakeDirectoryCall x ∈ calls <->
       x = inboxUrl
       /\ exists containers,
            listing = Ok containers
            /\ forall el, el ∈ containers -> ResourceInfo.url el <> inboxUrl.
Proof.
  cbv zeta. rewrite init_cases.
  set (inboxUrl := baseUrl +:+ default "inbox/" inboxPath).
  destruct listing as [containers|e]; cbn [fst].
  - pose proof (find_url_none inboxUrl containers) as Hfind.
    destruct (find _ containers) as [el|].
    + cbn [fst]. split; [by eexists|]. intros x.
      rewrite !elem_of_cons, elem_of_nil. split.
      * intros [H|[H|H]]; done.
      * intros (_ & cs & [= <-] & Hall). by apply Hfind in Hall.
    + destruct made as [[]|e]; cbn [fst].
      * split; [by eexists|]. intros x.
        rewrite !elem_of_cons, elem_of_nil. split.
        -- intros [H|[[= ->]|[H|H]]]; try done.
           split; [done|]. exists containers. split; [done|by apply Hfind].
        -- intros [-> _]. right. by left.
      * split; [by eexists|]. intros x.
        rewrite !elem_of_cons, elem_of_nil. split.
        -- intros [H|[[= ->]|H]]; try done.
           split; [done|]. exists containers. split; [done|by apply Hfind].
        -- intros [-> _]. right. by left.
  - split; [by eexists|]. intros x. rewrite elem_of_cons, elem_of_nil. split.
    + intros [H|H]; done.
    + intros (_ & cs & H & _). done.
Qed.

(** X18. [init] grants access only when the inbox is there (it was listed,
    or its creation succeeded), never as its first call and never followed
    by another call. The grant is one
    permission on the inbox url, for the web id of the session as agent, with
    append and read. [init] returns the inbox url, base url followed by the
    inbox path, exactly when this last call succeeds; a failure of the
    listing or of the creation is returned as it is, without a grant. *)
Theorem init_grants_access_last w baseUrl inboxPath listing made permitted :
  let inboxUrl := baseUrl +:+ default "inbox/" inboxPath in
  let permission :=
    {| PermissionOperation.type := "agent";
       PermissionOperation.append := true;
       PermissionOperation.read := true;
       PermissionOperation.id := webId w |} in
  let calls := fst (init w baseUrl inboxPath listing made permitted) in
  let result := snd (init w baseUrl inboxPath listing made permitted) in
  let inbox_there :=
    exists containers,
      listing = Ok containers
      /\ ((exists el, el ∈ containers /\ ResourceInfo.url el = inboxUrl)
          \/ made = Ok tt) in
  (forall x ops,
      ChangePermissionsCall x ops ∈ calls <->
      x = inboxUrl /\ ops = [permission] /\ inbox_there)
  /\ (forall x ops later,
        calls <> ChangePermissionsCall x ops :: later
        /\ forall before c, calls = before ++ ChangePermissionsCall x ops :: c :: later
                            -> False)
  /\ (forall u, result = Ok u <-> u = inboxUrl /\ permitted = Ok tt /\ inbox_there)
  /\ (forall e, listing = Thrown e -> result = Thrown e)
  /\ (forall containers e,
        listing = Ok containers ->
        (forall el, el ∈ containers -> ResourceInfo.url el <> inboxUrl) ->
        made = Thrown e -> result = Thrown e).
Proof.
  cbv zeta. rewrite init_cases.
  set (inboxUrl := baseUrl +:+ default "inbox/" inboxPath).
  set (permission := {| PermissionOperation.type := "agent";
                        PermissionOperation.append := true;
                        PermissionOperation.read := true;
                        PermissionOperation.id := webId w |}).
  assert (forall x ops later (l : list PodCall),
            (l = [ListCall baseUrl]
             \/ l = [ListCall baseUrl; MakeDirectoryCall inboxUrl]
             \/ l = [ListCall baseUrl; ChangePermissionsCall inboxUrl [permission]]
             \/ l = [ListCall baseUrl; MakeDirectoryCall inboxUrl;
                     ChangePermissionsCall inboxUrl [permission]]) ->
            l <> ChangePermissionsCall x ops :: later
            /\ forall before c,
                 l = before ++ ChangePermissionsCall x ops :: c :: later -> False)
    as Hlast.
  { intros x ops later l Hl. split.
    - by destruct Hl as [-> | [-> | [-> | ->]]].
    - intros before c Heq.
      destruct Hl as [-> | [-> | [-> | ->]]];
        repeat (destruct before as [|? before]; [done|]; cbn [app] in Heq;
                injection Heq as _ Heq);
        by destruct before. }
  destruct listing as [containers|e0].
  - pose proof (find_url_none inboxUrl containers) as Hnone.
    destruct (find _ containers) as [el|] eqn:Hfind.
    + assert (exists el, el ∈ containers /\ ResourceInfo.url el = inboxUrl) as Hel.
      { apply find_some in Hfind as [Hin Heq]. apply String.eqb_eq in Heq.
        exists el. by rewrite list_elem_of_In. }
      cbn [fst snd].
      split; [|split; [|split; [|split]]].
      * intros x ops. rewrite !elem_of_cons, elem_of_nil. split.
        -- intros [H|[[= -> ->]|H]]; try done.
           do 2 (split; [done|]). exists containers. by auto.
        -- intros (-> & -> & _). right. by left.
      * intros x ops later. apply Hlast. by auto.
      * intros u. destruct permitted as [[]|e]; split.
        -- intros [= <-]. do 2 (split; [done|]). exists containers. by auto.
        -- by intros (-> & _).
        -- done.
        -- by intros (_ & ? & _).
      * done.
      * intros cs e [= <-] Hall. destruct Hel as (el' & Hin & Heq).
        by destruct (Hall el' Hin).
    + assert (forall el, el ∈ containers -> ResourceInfo.url el <> inboxUrl)
        as Hall by by apply Hnone.
      destruct made as [[]|e]; cbn [fst snd].
      * split; [|split; [|split; [|split]]].
        -- intros x ops. rewrite !elem_of_cons, elem_of_nil. split.
           ++ intros [H|[H|[[= -> ->]|H]]]; try done.
              do 2 (split; [done|]). exists containers. by auto.
           ++ intros (-> & -> & _). right. right. by left.
        -- intros x ops later. apply Hlast. by auto.
        -- intros u. destruct permitted as [[]|e]; split.
           ++ intros [= <-]. do 2 (split; [done|]). exists containers. by auto.
           ++ by intros (-> & _).
           ++ done.
           ++ by intros (_ & ? & _).
        -- done.
        -- done.
      * split; [|split; [|split; [|split]]].
        -- intros x ops. rewrite !elem_of_cons, elem_of_nil. split.
           ++ intros [H|[H|H]]; done.
           ++ intros (_ & _ & cs & [= <-] & [(el & Hin & Heq)|Hm]); [|done].
              by destruct (Hall el Hin).
        -- intros x ops later. apply Hlast. by auto.
        -- intros u. split; [done|].
           intros (_ & _ & cs & [= <-] & [(el & Hin & Heq)|Hm]); [|done].
           by destruct (Hall el Hin).
        -- done.
        -- by intros cs e' _ _ [= ->].
  - cbn [fst snd]. split; [|split; [|split; [|split]]].
    + intros x ops. rewrite elem_of_cons, elem_of_nil. split.
      * intros [H|H]; done.
      * by intros (_ & _ & cs & ? & _).
    + intros x ops later. apply Hlast. by auto.
    + intros u. split; [done|]. by intros (_ & _ & cs & ? & _).
    + by intros e [= ->].
    + done.
Qed.

(** ** Instances *)

Lemma run_dedup_witness :
  let evs :=
    [CallStart inbox None; CallStart inbox (Some "notification_id");
     Listed 0 (Ok [item1]); Listed 1 (Ok [item1]);
     Fetched 1 reply1; Fetched 0 reply1] in
  let sys' := run sample_jsonld (idle caching_watcher) evs in
  emitted (log (self sys')) = [notification1; notification1]
  /\ marked (log (self sys'))
     = [Some "https://pod.example/inbox/1"; Some "urn:a"]
  /\ exists store' new,
       db (self sys') = Some store'
       /\ log (self sys') = log (self (idle caching_watcher)) ++ new
       /\ marked new = map snd (deliveries new)
       /\ NoDup (marked new)
       /\ (forall k, k ∈ marked new ->
              store_get ∅ k <> Some true /\ store_get store' k = Some true)
       /\ (forall k, store_get ∅ k = Some true -> store_get store' k = Some true)
       /\ (never_throws (self (idle caching_watcher)) ->
           emitted new = map fst (deliveries new)).
Proof.
  cbv zeta. split; [vm_compute; reflexivity|]. split; [vm_compute; reflexivity|].
  apply (run_dedup sample_jsonld (idle caching_watcher) _ ∅). reflexivity.
Defined.

Lemma stop_while_sleeping_witness :
  let sys :=
    run sample_jsonld (idle caching_watcher)
      [CallStart inbox None; Listed 0 (Ok [])] in
  phase_of 0 sys = Some Sleeping
  /\ listed (log (self (run sample_jsonld (step sample_jsonld sys CallStop)
                          [Timer 0; Listed 0 (Ok [item1]); Fetched 0 reply1])))
     = [inbox]
  /\ phase_of 0 (run sample_jsonld sys [CallStop; Timer 0]) = Some Resolved.
Proof.
  cbv zeta. split; [reflexivity|].
  destruct (stop_while_sleeping sample_jsonld
              (run sample_jsonld (idle caching_watcher)
                 [CallStart inbox None; Listed 0 (Ok [])])
              0 {| inboxUrl := inbox; strategy := "activity"; phase := Sleeping |}
              [Timer 0; Listed 0 (Ok [item1]); Fetched 0 reply1])
    as (Hlisted & _ & Hphase).
  - reflexivity.
  - reflexivity.
  - repeat constructor.
  - split; [rewrite Hlisted; reflexivity|exact Hphase].
Defined.

Lemma stop_then_start_keeps_loop_witness :
  let sys :=
    run sample_jsonld (idle caching_watcher)
      [CallStart inbox None; Listed 0 (Ok [])] in
  let sys' := run sample_jsonld sys [CallStop; CallStart inbox None; Timer 0] in
  phase_of 0 sys' = Some Listing /\ phase_of 1 sys' = Some Listing.
Proof.
  cbv zeta.
  destruct (stop_then_start_keeps_loop sample_jsonld
              (run sample_jsonld (idle caching_watcher)
                 [CallStart inbox None; Listed 0 (Ok [])])
              0 {| inboxUrl := inbox; strategy := "activity"; phase := Sleeping |}
              inbox None)
    as (_ & Hold & Hnew & _); [reflexivity|reflexivity|].
  split; [exact Hold|exact Hnew].
Defined.

Lemma listing_failure_ends_polling_witness :
  let sys := start inbox None (idle caching_watcher) in
  let sys' := step sample_jsonld sys (Listed 0 (Thrown "401 Unauthorized")) in
  self sys' = self sys
  /\ phase_of 0 (run sample_jsonld sys' [Timer 0; CallStart inbox None])
     = Some (Rejected "401 Unauthorized").
Proof.
  cbv zeta.
  destruct (listing_failure_ends_polling sample_jsonld
              (start inbox None (idle caching_watcher)) 0
              {| inboxUrl := inbox; strategy := "activity"; phase := Listing |}
              "401 Unauthorized" [Timer 0; CallStart inbox None])
    as (Hself & _ & Hlater); [reflexivity|reflexivity|].
  split; [exact Hself|exact Hlater].
Defined.

Lemma tick_without_requests_witness :
  let sys := start inbox None (idle caching_watcher) in
  let sys' := step sample_jsonld sys (Listed 0 (Ok [])) in
  self sys' = self sys /\ phase_of 0 sys' = Some Sleeping.
Proof.
  cbv zeta.
  destruct (tick_without_requests sample_jsonld
              (start inbox None (idle caching_watcher)) 0
              {| inboxUrl := inbox; strategy := "activity"; phase := Listing |} [])
    as (Hself & Hphase); [reflexivity|reflexivity|by left|].
  split; [exact Hself|exact Hphase].
Defined.

Lemma tick_marks_every_key_witness :
  let result :=
    tick sample_jsonld inbox "activity"
         (Ok [(item1, reply1); (item2, reply2); (item3, reply3)])
         caching_watcher in
  fst result = Ok tt
  /\ exists store',
       db (snd result) = Some store'
       /\ store_get store' (Some "urn:a") = Some true
       /\ store_get store' (Some "urn:c") = Some true.
Proof.
  cbv zeta.
  destruct (tick_marks_every_key sample_jsonld inbox "activity"
              [(item1, reply1); (item2, reply2); (item3, reply3)]
              caching_watcher ∅)
    as (Hok & Hkeys).
  - by eexists.
  - reflexivity.
  - repeat constructor; eexists; reflexivity.
  - assert (never_throws caching_watcher) as Hnever by (intros before n; reflexivity).
    split; [exact (Hok Hnever)|].
    destruct (Hkeys (Hok Hnever)) as (store' & new & Hdb & _ & _ & Hin).
    exists store'. split; [exact Hdb|]. split.
    + apply (Hin item1 reply1 notification1); [by left|reflexivity].
    + apply (Hin item3 reply3 notification3);
        [right; right; by left|reflexivity].
Defined.

Lemma parser_media_type_witness :
  parsed sample_jsonld
    (Ok {| Response.url := "https://pod.example/inbox/1"; Response.ok := true;
           Response.headers := [("content-type", "")];
           Response.text := "urn:a" |})
  = parseNotification
      (sample_jsonld "https://pod.example/inbox/1" "application/ld+json" "urn:a").
Proof.
  destruct (parser_media_type sample_jsonld
              {| Response.url := "https://pod.example/inbox/1"; Response.ok := true;
                 Response.headers := [("content-type", "")];
                 Response.text := "urn:a" |}) as [Hdefault _].
  apply Hdefault. right. reflexivity.
Defined.

Lemma sendNotification_authenticates_once_witness :
  let elsewhere token baseUrl :=
    if String.eqb baseUrl "https://pod.example/"
    then sample_authenticateToken token baseUrl
    else Thrown "unknown identity provider" in
  sendNotification sample_generateCSSToken elsewhere sample_serializer
    sample_http notification1 inbox sample_credentials
  = sendNotification sample_generateCSSToken sample_authenticateToken
      sample_serializer sample_http notification1 inbox sample_credentials.
Proof.
  cbv zeta.
  apply (sendNotification_authenticates_once sample_generateCSSToken
           sample_authenticateToken
           (fun token baseUrl =>
              if String.eqb baseUrl "https://pod.example/"
              then sample_authenticateToken token baseUrl
              else Thrown "unknown identity provider")).
  intros token. reflexivity.
Defined.

Lemma sendNotification_fails_early_witness :
  sendNotification sample_generateCSSToken sample_authenticateToken
    (fun _ _ => {| chunks := ["{"]; ending := Error_ "cannot serialize" |})
    sample_http notification1 inbox sample_credentials
  = Thrown "cannot serialize".
Proof.
  destruct (sendNotification_fails_early sample_generateCSSToken
              sample_authenticateToken
              (fun _ _ => {| chunks := ["{"]; ending := Error_ "cannot serialize" |})
              sample_http notification1 inbox sample_credentials
              "cannot serialize") as (_ & _ & H).
  apply (H sample_session); reflexivity.
Defined.

Lemma listener_failure_ends_polling_witness :
  let sys :=
    run sample_jsonld (idle fragile_watcher)
      [CallStart inbox None; Listed 0 (Ok [item1; item3])] in
  let sys' := step sample_jsonld sys (Fetched 0 reply1) in
  emitted (log (self sys')) = [notification1]
  /\ marked (log (self sys')) = []
  /\ phase_of 0 (run sample_jsonld sys' [Fetched 0 reply3; Timer 0])
     = Some (Rejected "listener failed").
Proof.
  cbv zeta.
  destruct (listener_failure_ends_polling sample_jsonld
              (run sample_jsonld (idle fragile_watcher)
                 [CallStart inbox None; Listed 0 (Ok [item1; item3])])
              0
              {| inboxUrl := inbox; strategy := "activity";
                 phase := Fetching item1 [item3] |}
              item1 [item3] reply1 notification1 ∅ "listener failed"
              [Fetched 0 reply3; Timer 0])
    as (Hlog & _ & _ & Hlater & _);
    [reflexivity|reflexivity|by eexists|reflexivity|reflexivity|reflexivity
    |reflexivity|].
  split; [rewrite Hlog; reflexivity|].
  split; [rewrite Hlog; reflexivity|exact Hlater].
Defined.

Lemma loop_repeats_ticks_witness :
  let sys :=
    run sample_jsonld (idle caching_watcher)
      [CallStart inbox None; Listed 0 (Ok [])] in
  let listings := [Ok [(item1, reply1)]; Ok [(item1, reply1); (item3, reply3)]] in
  emitted (log (self (run sample_jsonld sys (ticks_events 0 listings))))
  = [notification1; notification3]
  /\ phase_of 0 (run sample_jsonld sys (ticks_events 0 listings)) = Some Sleeping.
Proof.
  cbv zeta.
  destruct (loop_repeats_ticks sample_jsonld 0
              [Ok [(item1, reply1)]; Ok [(item1, reply1); (item3, reply3)]]
              (run sample_jsonld (idle caching_watcher)
                 [CallStart inbox None; Listed 0 (Ok [])])
              {| inboxUrl := inbox; strategy := "activity"; phase := Sleeping |})
    as (Hself & Hphase); [reflexivity|reflexivity|reflexivity|].
  split; [rewrite Hself; vm_compute; reflexivity|].
  rewrite Hphase. vm_compute. reflexivity.
Defined.
